(** * Orchestration layer of the Mani Ai Creative Suite

    A shallow embedding of [services/geminiService.ts]: the chat session
    cache, the single-shot invokers (media analysis, image generation, audio
    synthesis), the video generation orchestrator and the live transcription
    session manager, followed by the properties proved about them.

    Conventions.  The remote provider is not part of the program: every
    function takes what the provider answers as an argument (a scripted
    response) and records what it asks of the outside world in a trace of
    [Effect]s.  A JavaScript exception is the outcome [Throw]; an [await] on a
    response that the script does not contain is the outcome [Pending]. *)

From Stdlib Require Import ZArith QArith Qround Qabs Lqa Ascii String List Lia.
From stdpp Require Import base option list gmap strings.

Local Open Scope string_scope.
Local Open Scope list_scope.

(** ** JavaScript values shared by all components *)

(** Values that the code throws or rejects with.  [Error] is what
    [new Error(msg)] builds; [TypeError] is what the engine raises when a
    property is read from [undefined]; [ProviderError] stands for whatever the
    SDK or the network rejects with. *)
Inductive JsError : Type :=
| Error (message : string)
| TypeError (message : string)
| ProviderError (message : string).

Definition err_message (e : JsError) : string :=
  match e with
  | Error m | TypeError m | ProviderError m => m
  end.

(** [TypeError] raised by reading property [prop] of [undefined]. *)
Definition undefined_read (prop : string) : JsError :=
  TypeError ("Cannot read properties of undefined (reading '" +:+ prop +:+ "')").

Inductive ConsoleLevel : Type := LogLevel | WarnLevel | ErrorLevel.

(** Truthiness of a value of type [string | undefined]. *)
Definition truthy (v : option string) : bool :=
  match v with
  | Some s => negb (String.eqb s "")
  | None => false
  end.

(** Template-literal rendering of a [string | undefined]. *)
Definition render (v : option string) : string :=
  match v with
  | Some s => s
  | None => "undefined"
  end.

(** [process.env]: only [API_KEY] is read. *)
Record Env : Type := { API_KEY : option string }.

Definition missing_key : JsError := Error "API_KEY environment variable not set".

(** Two environments used in the examples. *)
Definition with_key : Env := {| API_KEY := Some "secret" |}.
Definition without_key : Env := {| API_KEY := None |}.

(** A [File] as the code sees it: its MIME type and what [FileReader]
    delivers for it. *)
Inductive ReadResult : Type :=
| ReadString (dataUrl : string)
| ReadOther
| ReadFailed (e : JsError).

Record File : Type := { file_type : string; file_read : ReadResult }.

Record InlineData : Type := { data : option string; mimeType : string }.

(** The voice names, models and payloads that reach the provider. *)
Record VideoPayload : Type := {
  vp_model : string;
  vp_prompt : option string;
  vp_image : option InlineData;
  vp_numberOfVideos : Z;
  vp_resolution : string;
  vp_aspectRatio : string
}.

Inductive Request : Type :=
| ChatSend (chat : nat) (message : string)
| GenerateContent (model : string) (prompt : string) (part : InlineData)
| GenerateImages (model : string) (prompt : string) (numberOfImages : Z)
    (outputMimeType : string) (aspectRatio : string)
| GenerateVideos (payload : VideoPayload)
| GetVideosOperation (name : string)
| Fetch (url : string)
| GenerateSpeech (model : string) (text : string) (voiceName : string)
| LiveConnect (model : string)
| SendRealtimeInput (conn : nat) (blob : string)
| CloseSession (conn : nat).

(** The callbacks of [TranscriptionCallbacks], as calls seen by the UI. *)
Inductive CallbackCall : Type :=
| onTranscriptionUpdate (transcript : string) (isFinal : bool)
| onError (e : JsError)
| onClose.

Inductive VideoEvent : Type :=
| fetching
| completed (url : string).

Inductive Effect : Type :=
| Remote (r : Request)
| Console (lvl : ConsoleLevel) (msg : string)
| Sleep (ms : Z)
| ReadAsDataURL (f : File)
| Yield (ev : VideoEvent)
| Call (owner : nat) (c : CallbackCall).

Abbreviation Trace := (list Effect).

Definition is_remote (e : Effect) : bool :=
  match e with
  | Remote _ => true
  | _ => false
  end.

(** No request has left the process. *)
Definition no_remote (t : Trace) : Prop := filter (λ e, is_remote e = true) t = [].

(** ** Outcomes and the run monad *)

Inductive Outcome (A : Type) : Type :=
| Return (a : A)
| Throw (e : JsError)
| Pending.
Arguments Return {A} a.
Arguments Throw {A} e.
Arguments Pending {A}.

(** What a provider call answers: a value or a rejection. *)
Definition Response (A : Type) : Type := JsError + A.

Definition Run (A : Type) : Type := Trace * Outcome A.

Definition run_trace {A} (r : Run A) : Trace := r.1.
Definition run_outcome {A} (r : Run A) : Outcome A := r.2.

#[global] Instance run_ret : MRet Run := λ A a, ([], Return a).

#[global] Instance run_bind : MBind Run := λ A B k r,
  match r with
  | (t, Return a) => let '(t', o) := k a in (t ++ t', o)
  | (t, Throw e) => (t, Throw e)
  | (t, Pending) => (t, Pending)
  end.

Definition emit (e : Effect) : Run unit := ([e], Return tt).
Definition throw {A} (e : JsError) : Run A := ([], Throw e).
Definition settle {A} (r : Response A) : Run A :=
  match r with
  | inl e => throw e
  | inr a => mret a
  end.

(** [await] of a remote call: the request is issued, then the scripted
    response arrives. *)
Definition await_remote {A} (req : Request) (r : Response A) : Run A :=
  emit (Remote req);; settle r.

Definition try_catch {A} (body : Run A) (handler : JsError → Run A) : Run A :=
  match body with
  | (t, Throw e) => let '(t', o) := handler e in (t ++ t', o)
  | r => r
  end.


(** ** Chat session cache *)

Inductive ChatPersonality : Type := standard | fast | creative.

#[global] Instance ChatPersonality_eq_dec : EqDecision ChatPersonality.
Proof. solve_decision. Defined.

#[global] Instance ChatPersonality_countable : Countable ChatPersonality.
Proof.
  refine (inj_countable'
    (λ p, match p with standard => 0%nat | fast => 1%nat | creative => 2%nat end)
    (λ n, match n with 0%nat => standard | 1%nat => fast | _ => creative end) _).
  by intros [].
Defined.

Module ChatCache.

Record ChatConfig : Type := {
  systemInstruction : string;
  thinkingConfig : option Z
}.

(** A [Chat] object of the SDK.  [chat_ref] is the identity of the object:
    two values are the same instance exactly when their references agree. *)
Record Chat : Type := {
  chat_ref : nat;
  chat_apiKey : string;
  chat_model : string;
  chat_config : ChatConfig
}.

(** The module-level [chats] map, together with the number of [Chat] objects
    constructed so far (the next fresh reference). *)
Record Store : Type := {
  chats : gmap ChatPersonality Chat;
  allocated : nat
}.

Definition init : Store := {| chats := ∅; allocated := 0 |}.

Definition clearChatHistory (personality : ChatPersonality) (s : Store) : Store :=
  {| chats := delete personality (chats s); allocated := allocated s |}.

Definition base_instruction : string :=
  "You are Mani Ai, a helpful and friendly AI assistant. Your responses should be informative and easy to understand.".

Definition model_of (personality : ChatPersonality) : string :=
  match personality with
  | fast => "gemini-flash-lite-latest"
  | creative => "gemini-2.5-pro"
  | standard => "gemini-2.5-flash"
  end.

Definition config_of (personality : ChatPersonality) : ChatConfig :=
  match personality with
  | creative => {| systemInstruction := base_instruction; thinkingConfig := Some 32768%Z |}
  | _ => {| systemInstruction := base_instruction; thinkingConfig := None |}
  end.

Definition getChatInstance (env : Env) (personality : ChatPersonality) (s : Store)
  : Store * Outcome Chat :=
  match chats s !! personality with
  | Some c => (s, Return c)
  | None =>
      if negb (truthy (API_KEY env)) then (s, Throw missing_key)
      else
        let newChat := {| chat_ref := allocated s;
                          chat_apiKey := render (API_KEY env);
                          chat_model := model_of personality;
                          chat_config := config_of personality |} in
        ({| chats := <[personality := newChat]> (chats s);
            allocated := S (allocated s) |}, Return newChat)
  end.

Definition send_failure : JsError := Error "Failed to communicate with the Mani Ai service.".

(** [reply] is what [chatInstance.sendMessage] followed by [.text] gives.
    This is the turn from the call to the settling of its promise with
    nothing else touching the cache while the reply is awaited; [ChatTurn]
    below takes the turn apart at its [await]. *)
Definition sendMessageToAI (env : Env) (reply : Response string)
    (message : string) (personality : ChatPersonality) (s : Store)
  : Store * Run string :=
  let '(s1, got) := getChatInstance env personality s in
  let body : Run string :=
    match got with
    | Return chatInstance => await_remote (ChatSend (chat_ref chatInstance) message) reply
    | Throw e => throw e
    | Pending => ([], Pending)
    end in
  match body with
  | (t, Throw error) =>
      (clearChatHistory personality s1,
       (t ++ [Console ErrorLevel "Error sending message to Gemini:"], Throw send_failure))
  | r => (s1, r)
  end.

(** Every cached session was constructed earlier: its reference is below
    the allocation counter. *)
Definition wf (s : Store) : Prop :=
  ∀ p c, chats s !! p = Some c → chat_ref c < allocated s.

End ChatCache.

(** ** Single-shot invokers *)

Module Invokers.

(** [s.split(',')[1]]: the piece between the first and the second comma,
    [undefined] when [s] has no comma. *)
Fixpoint after_comma (s : string) : option string :=
  match s with
  | EmptyString => None
  | String c rest => if Ascii.eqb c ","%char then Some rest else after_comma rest
  end.

Fixpoint until_comma (s : string) : string :=
  match s with
  | EmptyString => EmptyString
  | String c rest => if Ascii.eqb c ","%char then EmptyString else String c (until_comma rest)
  end.

Definition split_comma_1 (s : string) : option string := until_comma <$> after_comma s.

Definition fileToGenerativePart (file : File) : Run InlineData :=
  emit (ReadAsDataURL file);;
  match file_read file with
  | ReadFailed err => throw err
  | ReadOther => throw (Error "Failed to read file as base64.")
  | ReadString result =>
      mret {| data := split_comma_1 result; mimeType := file_type file |}
  end.

Definition analyzeMedia (env : Env) (reply : Response string)
    (prompt : string) (file : File) : Run string :=
  if negb (truthy (API_KEY env)) then throw missing_key
  else
    let model := if String.prefix "video/" (file_type file)
                 then "gemini-2.5-pro" else "gemini-2.5-flash" in
    imagePart ← fileToGenerativePart file;
    await_remote (GenerateContent model prompt imagePart) reply.

Inductive ImageAspect : Type := ia_1_1 | ia_3_4 | ia_4_3 | ia_9_16 | ia_16_9.

Definition image_aspect_string (a : ImageAspect) : string :=
  match a with
  | ia_1_1 => "1:1" | ia_3_4 => "3:4" | ia_4_3 => "4:3"
  | ia_9_16 => "9:16" | ia_16_9 => "16:9"
  end.

Record Image : Type := { imageBytes : option string }.
Record GeneratedImage : Type := { image : option Image }.
Record GenerateImagesResponse : Type := { generatedImages : option (list GeneratedImage) }.

(** [response.generatedImages[0].image.imageBytes], with the [TypeError] of
    each property read on [undefined]. *)
Definition first_image_bytes (response : GenerateImagesResponse) : Run (option string) :=
  match generatedImages response with
  | None => throw (undefined_read "0")
  | Some imgs =>
      match head imgs with
      | None => throw (undefined_read "image")
      | Some g =>
          match image g with
          | None => throw (undefined_read "imageBytes")
          | Some i => mret (imageBytes i)
          end
      end
  end.

Definition generateImage (env : Env) (reply : Response GenerateImagesResponse)
    (prompt : string) (aspectRatio : ImageAspect) : Run string :=
  if negb (truthy (API_KEY env)) then throw missing_key
  else
    response ← await_remote
      (GenerateImages "imagen-4.0-generate-001" prompt 1 "image/jpeg"
         (image_aspect_string aspectRatio)) reply;
    base64ImageBytes ← first_image_bytes response;
    mret ("data:image/jpeg;base64," +:+ render base64ImageBytes).

Record Part : Type := { inlineData : option InlineData }.
Record Content : Type := { parts : option (list Part) }.
Record Candidate : Type := { content : option Content }.
Record GenerateContentResponse : Type := { candidates : option (list Candidate) }.

(** [response.candidates?.[0]?.content?.parts?.[0]?.inlineData?.data] *)
Definition first_audio_data (response : GenerateContentResponse) : option string :=
  cs ← candidates response;
  c ← head cs;
  ct ← content c;
  ps ← parts ct;
  p ← head ps;
  d ← inlineData p;
  data d.

Definition api_voice (voiceName : string) : string :=
  if String.eqb voiceName "Prabhas" then "Fenrir"
  else if String.eqb voiceName "Human" then "Zephyr"
  else voiceName.

(** [new GoogleGenAI({ apiKey: process.env.API_KEY })] where no check of the
    program stands before it.  The constructor is code of the SDK, so what it
    does with a key is an input of the model, like the provider's answers:
    [None] when the client is constructed, [Some e] when the constructor
    throws [e].  (Every other entry point constructs the client behind its own
    check, with a key that is a non-empty string.) *)
Definition Constructor : Type := option string → option JsError.

(** Two constructors used in the examples: one that takes whatever it is
    given, and one that throws when the key is [undefined]. *)
Definition accepts_any_key : Constructor := λ _, None.
Definition refuses_unset_key : Constructor := λ apiKey,
  match apiKey with
  | None => Some (ProviderError "no API key")
  | Some _ => None
  end.

(** The source has no credential check of its own in this function: the
    first thing it does is to construct the client with whatever
    [process.env.API_KEY] holds. *)
Definition generateAudio (construct : Constructor) (env : Env)
    (reply : Response GenerateContentResponse)
    (text : string) (voiceName : string) : Run string :=
  match construct (API_KEY env) with
  | Some thrown => throw thrown
  | None =>
      let apiVoiceName := api_voice voiceName in
      response ← await_remote
        (GenerateSpeech "gemini-2.5-flash-preview-tts" text apiVoiceName) reply;
      let base64Audio := first_audio_data response in
      if negb (truthy base64Audio) then throw (Error "Failed to generate audio data.")
      else mret (render base64Audio)
  end.

End Invokers.

(** Truthiness of a value of type [boolean | undefined]. *)
Definition truthy_flag (b : option bool) : bool :=
  match b with
  | Some true => true
  | _ => false
  end.

(** ** Video generation orchestrator *)

Module VideoGen.

Inductive VideoAspect : Type := va_16_9 | va_9_16.

Definition video_aspect_string (a : VideoAspect) : string :=
  match a with
  | va_16_9 => "16:9"
  | va_9_16 => "9:16"
  end.

Record VideoConfig : Type := { aspectRatio : VideoAspect; imageFile : option File }.

Record OperationError : Type := { message : string }.
Record Video : Type := { uri : option string }.
Record GeneratedVideo : Type := { video : option Video }.
Record GenerateVideosResponse : Type := { generatedVideos : option (list GeneratedVideo) }.

(** The job handle returned by the provider. *)
Record Operation : Type := {
  name : string;
  done : option bool;
  error : option OperationError;
  response : option GenerateVideosResponse
}.

Record FetchResponse : Type := {
  ok : bool;
  statusText : string;
  blob : Response string
}.

(** What the outside world answers during one call of [generateVideo]:
    the submission, the successive status queries (in order), the asset
    fetch, and the URL that [URL.createObjectURL] mints for a blob. *)
Record World : Type := {
  submitted : Response Operation;
  polls : list (Response Operation);
  fetched : Response FetchResponse;
  createObjectURL : string → string
}.

(** [operation.response?.generatedVideos?.[0]?.video?.uri] *)
Definition download_link (operation : Operation) : option string :=
  r ← response operation;
  vs ← generatedVideos r;
  v ← head vs;
  vd ← video v;
  uri vd.

(** The [while (!operation.done)] loop.  It recurses on the answers that the
    provider still has to give; a query that is never answered leaves the
    generator suspended. *)
Fixpoint poll (operation : Operation) (answers : list (Response Operation))
  : Run Operation :=
  if truthy_flag (done operation) then mret operation
  else
    emit (Sleep 10000);;
    match answers with
    | [] => ([Remote (GetVideosOperation (name operation))], Pending)
    | answer :: rest =>
        operation' ← try_catch
          (await_remote (GetVideosOperation (name operation)) answer)
          (λ e, emit (Console ErrorLevel "Error polling video operation:");; throw e);
        poll operation' rest
    end.

(** The part of [generateVideo] that follows the polling loop: the checks on
    the finished operation, the asset fetch and the two [yield]s. *)
Definition deliver (env : Env) (w : World) (operation : Operation) : Run unit :=
  match error operation with
  | Some err => throw (Error ("Video generation failed: " +:+ message err))
  | None =>
      let downloadLink := download_link operation in
      if negb (truthy downloadLink)
      then throw (Error "Video generation failed to produce a download link.")
      else
        emit (Yield fetching);;
        resp ← await_remote
          (Fetch (render downloadLink +:+ "&key=" +:+ render (API_KEY env)))
          (fetched w);
        if negb (ok resp)
        then throw (Error ("Failed to fetch video: " +:+ statusText resp))
        else
          videoBlob ← settle (blob resp);
          let videoUrl := createObjectURL w videoBlob in
          emit (Yield (completed videoUrl))
  end.

(** The payload of the submission. *)
Definition payload_of (prompt : string) (config : VideoConfig)
    (image : option InlineData) : VideoPayload :=
  {| vp_model := "veo-3.1-fast-generate-preview";
     vp_prompt := if truthy (Some prompt) then Some prompt else None;
     vp_image := image;
     vp_numberOfVideos := 1;
     vp_resolution := "720p";
     vp_aspectRatio := video_aspect_string (aspectRatio config) |}.

(** One complete consumption of the async generator: each [yield] is a
    [Yield] entry of the trace, in program order with the requests. *)
Definition generateVideo (env : Env) (w : World) (prompt : string)
    (config : VideoConfig) : Run unit :=
  if negb (truthy (API_KEY env)) then throw missing_key
  else
    payload_image ←
      match imageFile config with
      | Some f => imagePart ← Invokers.fileToGenerativePart f; mret (Some imagePart)
      | None => mret None
      end;
    operation ← await_remote (GenerateVideos (payload_of prompt config payload_image))
                  (submitted w);
    operation ← poll operation (polls w);
    deliver env w operation.

(** The image attached to the request, if any, can be read. *)
Definition image_readable (config : VideoConfig) : bool :=
  match imageFile config with
  | Some f => match file_read f with ReadString _ => true | _ => false end
  | None => true
  end.

(** The events a consumer receives, and the status queries issued. *)
Definition yields (t : Trace) : list VideoEvent :=
  omap (λ e, match e with Yield ev => Some ev | _ => None end) t.

Definition is_poll (e : Effect) : bool :=
  match e with
  | Remote (GetVideosOperation _) => true
  | _ => false
  end.

Definition is_fetch (e : Effect) : bool :=
  match e with
  | Remote (Fetch _) => true
  | _ => false
  end.

(** One turn of the polling loop on [operation]: the delay, then the query. *)
Definition poll_round (operation : Operation) : Trace :=
  [Sleep 10000; Remote (GetVideosOperation (name operation))].

Definition count_polls (t : Trace) : nat := length (filter (λ e, is_poll e = true) t).
Definition count_fetches (t : Trace) : nat := length (filter (λ e, is_fetch e = true) t).

(** Scenarios used in the examples: a job that is still running, one that
    finished with a video, one that finished with an error, and the worlds
    built from them. *)
Definition op_running : Operation :=
  {| name := "operations/42"; done := Some false; error := None; response := None |}.

Definition op_ready : Operation :=
  {| name := "operations/42"; done := Some true; error := None;
     response := Some {| generatedVideos :=
       Some [{| video := Some {| uri := Some "https://files/v.mp4?alt=media" |} |}] |} |}.

Definition op_refused : Operation :=
  {| name := "operations/42"; done := Some true;
     error := Some {| message := "RESOURCE_EXHAUSTED" |}; response := None |}.

Definition asset_ok : FetchResponse :=
  {| ok := true; statusText := "OK"; blob := inr "mp4-bytes" |}.

Definition asset_denied : FetchResponse :=
  {| ok := false; statusText := "Forbidden"; blob := inr "" |}.

Definition object_url (bytes : string) : string := "blob:" +:+ bytes.

Definition world_two_polls : World :=
  {| submitted := inr op_running;
     polls := [inr op_running; inr op_running; inr op_ready; inr op_running];
     fetched := inr asset_ok;
     createObjectURL := object_url |}.

Definition world_refused : World :=
  {| submitted := inr op_running;
     polls := [inr op_refused];
     fetched := inr asset_ok;
     createObjectURL := object_url |}.

Definition world_denied : World :=
  {| submitted := inr op_running;
     polls := [inr op_ready];
     fetched := inr asset_denied;
     createObjectURL := object_url |}.

Definition text_only : VideoConfig := {| aspectRatio := va_16_9; imageFile := None |}.

End VideoGen.

(** ** Live transcription session manager *)

Module Transcribe.

Record Transcription : Type := { text : string }.

Record ServerContent : Type := {
  inputTranscription : option Transcription;
  turnComplete : option bool
}.

Record LiveServerMessage : Type := { serverContent : option ServerContent }.

(** The [onmessage] handler.  [currentTranscript] is the closure variable of
    the enclosing [startTranscriptionSession] call; the handler returns its
    new value and the callbacks it made, in order. *)
Definition onmessage (message : LiveServerMessage) (currentTranscript : string)
  : string * list CallbackCall :=
  let '(currentTranscript, calls) :=
    match serverContent message ≫= inputTranscription with
    | Some tr => (text tr, [onTranscriptionUpdate (text tr) false])
    | None => (currentTranscript, [])
    end in
  if truthy_flag (serverContent message ≫= turnComplete) then
    if truthy (Some currentTranscript)
    then (EmptyString, calls ++ [onTranscriptionUpdate currentTranscript true])
    else (currentTranscript, calls)
  else (currentTranscript, calls).

(** State of the socket behind one [ai.live.connect] call and of the promise
    that the call returned. *)
Inductive Socket : Type := Connecting | Open | Closing | Closed.

Inductive PromiseState : Type :=
| Unsettled
| Fulfilled
| Rejected (e : JsError).

(** The chains hung on the session promise by [stopTranscriptionSession]
    ([then(close).catch(log).finally(clear)]) and by
    [sendAudioForTranscription] ([then(send).catch(log)]). *)
Inductive Reaction : Type :=
| StopChain
| SendChain (pcmBlob : string).

Record Session : Type := {
  owner : nat;
  currentTranscript : string;
  socket : Socket;
  promise : PromiseState;
  waiting : list Reaction
}.

(** [liveSessionPromise] is the module-level handle; it names the connection
    whose promise it holds.  [sessions] lists every connection opened so
    far, [microtasks] the reactions that are ready to run. *)
Record State : Type := {
  liveSessionPromise : option nat;
  sessions : list Session;
  microtasks : list (nat * Reaction)
}.

Definition init : State :=
  {| liveSessionPromise := None; sessions := []; microtasks := [] |}.

Definition set_handle (h : option nat) (st : State) : State :=
  {| liveSessionPromise := h; sessions := sessions st; microtasks := microtasks st |}.

Definition set_session (i : nat) (s : Session) (st : State) : State :=
  {| liveSessionPromise := liveSessionPromise st;
     sessions := <[i := s]> (sessions st);
     microtasks := microtasks st |}.

Definition live_model : string := "gemini-2.5-flash-native-audio-preview-09-2025".

Definition startTranscriptionSession (env : Env) (callbacks : nat) (st : State)
  : State * Trace :=
  match liveSessionPromise st with
  | Some _ => (st, [Console WarnLevel "Transcription session already in progress."])
  | None =>
      if negb (truthy (API_KEY env))
      then (st, [Call callbacks (onError missing_key)])
      else
        let fresh := {| owner := callbacks; currentTranscript := EmptyString;
                        socket := Connecting; promise := Unsettled; waiting := [] |} in
        ({| liveSessionPromise := Some (length (sessions st));
            sessions := sessions st ++ [fresh];
            microtasks := microtasks st |},
         [Remote (LiveConnect live_model)])
  end.

(** [promise.then(...)]: the chain waits while the promise is unsettled and
    is queued as a microtask otherwise. *)
Definition react (i : nat) (r : Reaction) (st : State) : State :=
  match sessions st !! i with
  | None => st
  | Some s =>
      match promise s with
      | Unsettled =>
          set_session i {| owner := owner s; currentTranscript := currentTranscript s;
                           socket := socket s; promise := promise s;
                           waiting := waiting s ++ [r] |} st
      | _ =>
          {| liveSessionPromise := liveSessionPromise st;
             sessions := sessions st;
             microtasks := microtasks st ++ [(i, r)] |}
      end
  end.

Definition sendAudioForTranscription (pcmBlob : string) (st : State) : State * Trace :=
  match liveSessionPromise st with
  | None => (st, [Console ErrorLevel "Cannot send audio, transcription session not started."])
  | Some i => (react i (SendChain pcmBlob) st, [])
  end.

Definition stopTranscriptionSession (st : State) : State * Trace :=
  match liveSessionPromise st with
  | None => (st, [])
  | Some i => (react i StopChain st, [])
  end.

(** Settling the promise of connection [i] releases its waiting chains. *)
Definition settle_promise (i : nat) (s : Session) (p : PromiseState) (sock : Socket)
    (st : State) : State :=
  {| liveSessionPromise := liveSessionPromise st;
     sessions := <[i := {| owner := owner s; currentTranscript := currentTranscript s;
                           socket := sock; promise := p; waiting := [] |}]> (sessions st);
     microtasks := microtasks st ++ ((λ r, (i, r)) <$> waiting s) |}.

Definition with_socket (s : Session) (sock : Socket) : Session :=
  {| owner := owner s; currentTranscript := currentTranscript s;
     socket := sock; promise := promise s; waiting := waiting s |}.

Definition with_transcript (s : Session) (cur : string) : Session :=
  {| owner := owner s; currentTranscript := cur;
     socket := socket s; promise := promise s; waiting := waiting s |}.

(** [e.message || "An unknown error occurred during transcription."] *)
Definition normalized (msg : option string) : JsError :=
  Error (if truthy msg then render msg
         else "An unknown error occurred during transcription.").

(** One queued chain, run to its end.  [fails] is what [session.close()] or
    [session.sendRealtimeInput] throws, if it throws. *)
Definition run_reaction (i : nat) (r : Reaction) (fails : option JsError)
    (s : Session) (st : State) : State * Trace :=
  match r with
  | StopChain =>
      match promise s, fails with
      | Fulfilled, None =>
          let sock := match socket s with Closed => Closed | _ => Closing end in
          (set_handle None (set_session i (with_socket s sock) st),
           [Remote (CloseSession i)])
      | Fulfilled, Some _ =>
          (set_handle None st,
           [Remote (CloseSession i);
            Console ErrorLevel "Error while closing transcription session:"])
      | _, _ =>
          (set_handle None st,
           [Console ErrorLevel "Error while closing transcription session:"])
      end
  | SendChain pcmBlob =>
      match promise s, fails with
      | Fulfilled, None => (st, [Remote (SendRealtimeInput i pcmBlob)])
      | Fulfilled, Some _ =>
          (st, [Remote (SendRealtimeInput i pcmBlob);
                Console ErrorLevel "Failed to send audio data:"])
      | _, _ => (st, [Console ErrorLevel "Failed to send audio data:"])
      end
  end.

(** What can happen next: a call from the UI, an event of one of the
    sockets, or the next microtask. *)
Inductive Event : Type :=
| Start (env : Env) (callbacks : nat)
| Stop
| SendAudio (pcmBlob : string)
| Opened (i : nat)
| ConnectRejected (i : nat) (e : JsError)
| Message (i : nat) (m : LiveServerMessage)
| SocketError (i : nat) (msg : option string)
| SocketClosed (i : nat)
| Microtask (fails : option JsError).

(** [step] is [None] when the event cannot occur in the state (a message on
    a socket that is not open, a second close of the same socket, ...). *)
Definition step (ev : Event) (st : State) : option (State * Trace) :=
  match ev with
  | Start env callbacks => Some (startTranscriptionSession env callbacks st)
  | Stop => Some (stopTranscriptionSession st)
  | SendAudio pcmBlob => Some (sendAudioForTranscription pcmBlob st)
  | Opened i =>
      s ← sessions st !! i;
      match socket s, promise s with
      | Connecting, Unsettled =>
          Some (settle_promise i s Fulfilled Open st,
                [Console LogLevel "Transcription session opened."])
      | _, _ => None
      end
  | ConnectRejected i e =>
      s ← sessions st !! i;
      match socket s, promise s with
      | Connecting, Unsettled => Some (settle_promise i s (Rejected e) Closed st, [])
      | _, _ => None
      end
  | Message i m =>
      s ← sessions st !! i;
      match socket s with
      | Open =>
          let '(cur, calls) := onmessage m (currentTranscript s) in
          Some (set_session i (with_transcript s cur) st, Call (owner s) <$> calls)
      | _ => None
      end
  | SocketError i msg =>
      s ← sessions st !! i;
      match socket s with
      | Closed => None
      | _ =>
          Some (set_handle None st,
                [Console ErrorLevel "Transcription session error:";
                 Call (owner s) (onError (normalized msg))])
      end
  | SocketClosed i =>
      s ← sessions st !! i;
      match socket s with
      | Closed => None
      | _ =>
          Some (set_handle None (set_session i (with_socket s Closed) st),
                [Console LogLevel "Transcription session closed.";
                 Call (owner s) onClose])
      end
  | Microtask fails =>
      match microtasks st with
      | [] => None
      | (i, r) :: queue =>
          s ← sessions st !! i;
          Some (run_reaction i r fails s
                  {| liveSessionPromise := liveSessionPromise st;
                     sessions := sessions st;
                     microtasks := queue |})
      end
  end.

Fixpoint run (evs : list Event) (st : State) : option (State * Trace) :=
  match evs with
  | [] => Some (st, [])
  | ev :: rest =>
      '(st1, t1) ← step ev st;
      '(st2, t2) ← run rest st1;
      Some (st2, t1 ++ t2)
  end.

(** A session exists while its socket is connecting or open. *)
Definition exists_now (s : Session) : bool :=
  match socket s with
  | Connecting | Open => true
  | Closing | Closed => false
  end.

Definition live_sessions (st : State) : list Session :=
  filter (λ s, exists_now s = true) (sessions st).

(** The two kinds of inbound event that the transcription protocol sends
    apart: an interim fragment without a boundary marker, and a
    turn-complete marker without a fragment. *)
Definition fragment_only (fragment : string) (marker : option bool) : LiveServerMessage :=
  {| serverContent := Some {| inputTranscription := Some {| text := fragment |};
                              turnComplete := marker |} |}.

Definition turn_complete_only : LiveServerMessage :=
  {| serverContent := Some {| inputTranscription := None; turnComplete := Some true |} |}.

(** A schedule in which the close event of a session that was stopped
    arrives after the next session was started. *)
Definition stale_close_schedule : list Event :=
  [Start with_key 1; Opened 0; Stop; Microtask None;
   Start with_key 2; SocketClosed 0; Opened 1;
   Start with_key 3; Opened 2].

Definition is_connect (e : Effect) : bool :=
  match e with
  | Remote (LiveConnect _) => true
  | _ => false
  end.

Definition connects (t : Trace) : nat := length (filter (λ e, is_connect e = true) t).

End Transcribe.

(** ** Audio codec utility *)

Module AudioCodec.

(** Modelled from the spec: [utils/audioUtils.ts] ([createPcmBlob] and the
    decoding half of [playAudio]) is missing from the sources; only its
    callers are present.  The spec says: each sample is clamped to [-1, 1],
    scaled to a signed 16-bit integer range and packed little-endian; the
    decode step interprets the bytes as signed 16-bit little-endian and
    converts them to normalized samples.  A sample is a rational number (every
    finite floating-point value is one).  The spec names neither the scale
    factor nor the rounding of the scaled value, so both are arguments:
    [scale] is the integer that the sample 1 is scaled to, [round] the
    conversion of the scaled value to an integer.  The decode step that
    corresponds to a scale divides by it. *)
Definition clamp (x : Q) : Q :=
  if Qle_bool x (-1) then (-1)%Q else if Qle_bool 1 x then 1%Q else x.

(** Modelled from the spec: the store of an integer into a signed 16-bit
    slot (two's complement, modulo 2^16). *)
Definition wrap16 (n : Z) : Z := ((n + 32768) mod 65536 - 32768)%Z.

(** Modelled from the spec: clamp, scale, convert to a signed 16-bit
    integer. *)
Definition quantize (scale : positive) (round : Q → Z) (x : Q) : Z :=
  wrap16 (round (clamp x * inject_Z (Zpos scale))%Q).

(** Modelled from the spec: the two bytes of a signed 16-bit integer, low
    byte first. *)
Definition to_le16 (n : Z) : list Z := [n mod 256; (n / 256) mod 256]%Z.

(** Modelled from the spec: the signed 16-bit integer held by two bytes, low
    byte first. *)
Definition of_le16 (lo hi : Z) : Z :=
  let u := (lo + 256 * hi)%Z in
  if (u <? 32768)%Z then u else (u - 65536)%Z.

(** Modelled from the spec: [encodePcm]. *)
Definition encodePcm (scale : positive) (round : Q → Z) (samples : list Q) : list Z :=
  flat_map (λ x, to_le16 (quantize scale round x)) samples.

(** Modelled from the spec: the bytes read as a sequence of signed 16-bit
    little-endian integers (a trailing odd byte holds no sample). *)
Fixpoint int16_of_bytes (bytes : list Z) : list Z :=
  match bytes with
  | lo :: hi :: rest => of_le16 lo hi :: int16_of_bytes rest
  | _ => []
  end.

(** Modelled from the spec: the decode step, bytes to normalized samples. *)
Definition decodePcm (scale : positive) (bytes : list Z) : list Q :=
  map (λ n, n # scale) (int16_of_bytes bytes).

(** One step of the 16-bit grid at this scale. *)
Definition quantization_step (scale : positive) : Q := 1 # scale.

(** A conversion to an integer that lands on a neighbouring integer:
    truncation, floor, ceiling and round-to-nearest all do. *)
Definition rounding (round : Q → Z) : Prop :=
  ∀ q, (Qfloor q <= round q <= Qceiling q)%Z.

(** Modelled from the spec: one such conversion, truncation toward zero
    (what a store into a 16-bit integer array does to a fractional value). *)
Definition Qtrunc (q : Q) : Z := Z.quot (Qnum q) (Zpos (Qden q)).

(** Samples used in the examples. *)
Definition test_samples : list Q :=
  [0; 1; -1; 1 # 3; -2 # 7; 99999 # 100000]%Q.

End AudioCodec.

(** ** Runs of the chat session cache *)

Module CacheRuns.
Import ChatCache.

(** The operations that touch the [chats] map. *)
Inductive Op : Type :=
| Get (env : Env) (personality : ChatPersonality)
| Clear (personality : ChatPersonality)
| Send (env : Env) (reply : Response string) (message : string)
    (personality : ChatPersonality).

Definition target (o : Op) : ChatPersonality :=
  match o with
  | Get _ p | Clear p | Send _ _ _ p => p
  end.

Definition exec (o : Op) (s : Store) : Store :=
  match o with
  | Get env p => (getChatInstance env p s).1
  | Clear p => clearChatHistory p s
  | Send env reply message p => (sendMessageToAI env reply message p s).1
  end.

Definition exec_all (ops : list Op) (s : Store) : Store :=
  foldl (λ s o, exec o s) s ops.

(** Every cached session was created with the settings of its key. *)
Definition configured (s : Store) : Prop :=
  ∀ p c, chats s !! p = Some c →
    chat_model c = model_of p ∧ chat_config c = config_of p.

(** No [Chat] object is cached under two personalities. *)
Definition unshared (s : Store) : Prop :=
  ∀ p q c d, chats s !! p = Some c → chats s !! q = Some d →
    chat_ref c = chat_ref d → p = q.

End CacheRuns.

(** ** A chat turn across its await *)

Module ChatTurn.
Import ChatCache CacheRuns.

(** [sendMessageToAI] is an [async] function with one [await], so the event
    loop runs it in two steps, and other code runs between them.

    [start] is the first step: the [try] block up to the [await], that is
    [getChatInstance] and the call of [sendMessage].  When [getChatInstance]
    throws, the [catch] block runs in this same step. *)
Definition start (env : Env) (message : string) (personality : ChatPersonality)
    (s : Store) : Store * Run Chat :=
  match getChatInstance env personality s with
  | (s1, Return chatInstance) =>
      (s1, ([Remote (ChatSend (chat_ref chatInstance) message)], Return chatInstance))
  | (s1, Throw error) =>
      (clearChatHistory personality s1,
       ([Console ErrorLevel "Error sending message to Gemini:"], Throw send_failure))
  | (s1, Pending) => (s1, ([], Pending))
  end.

(** [resume] is the second step, run when the reply is there, on the cache
    as it is by then: the [return], or the [catch] block. *)
Definition resume (reply : Response string) (personality : ChatPersonality)
    (s : Store) : Store * Run string :=
  match reply with
  | inr text => (s, ([], Return text))
  | inl error =>
      (clearChatHistory personality s,
       ([Console ErrorLevel "Error sending message to Gemini:"], Throw send_failure))
  end.

(** The whole turn, with the cache operations [between] run while the reply
    is awaited.  Whatever code runs then reaches the [chats] map only through
    [getChatInstance] and [delete], which is what the operations of
    [CacheRuns] do to it.  The trace is that of this turn alone. *)
Definition turn (env : Env) (reply : Response string) (message : string)
    (personality : ChatPersonality) (between : list Op) (s : Store)
  : Store * Run string :=
  let '(s1, (t, started)) := start env message personality s in
  match started with
  | Return _ =>
      let '(s2, (t', outcome)) := resume reply personality (exec_all between s1) in
      (s2, (t ++ t', outcome))
  | Throw e => (s1, (t, Throw e))
  | Pending => (s1, (t, Pending))
  end.

End ChatTurn.

(** ** Counting in traces *)

Definition is_sleep (e : Effect) : bool :=
  match e with
  | Sleep _ => true
  | _ => false
  end.

Definition count_remote (t : Trace) : nat := length (filter (λ e, is_remote e = true) t).
Definition count_sleeps (t : Trace) : nat := length (filter (λ e, is_sleep e = true) t).

(** The realtime inputs sent, in order, with the connection they went to. *)
Definition sent_audio (t : Trace) : list (nat * string) :=
  omap (λ e, match e with
             | Remote (SendRealtimeInput conn pcmBlob) => Some (conn, pcmBlob)
             | _ => None
             end) t.

(** ** Data URLs *)

(** The string has no comma. *)
Definition comma_free (s : string) : Prop := Invokers.after_comma s = None.

(** ** Invariants of the transcription manager *)

(** The handle, when set, names the connection opened last. *)
Definition handle_is_latest (st : Transcribe.State) : Prop :=
  ∀ i, Transcribe.liveSessionPromise st = Some i →
       S i = length (Transcribe.sessions st).

(** Chains wait only on unsettled promises and are queued only for settled
    ones. *)
Definition reactions_placed (st : Transcribe.State) : Prop :=
  (∀ i r, (i, r) ∈ Transcribe.microtasks st →
     ∃ s, Transcribe.sessions st !! i = Some s
          ∧ Transcribe.promise s ≠ Transcribe.Unsettled)
  ∧ (∀ i s, Transcribe.sessions st !! i = Some s →
       Transcribe.promise s ≠ Transcribe.Unsettled → Transcribe.waiting s = []).

(** Audio sent while the connection is still being opened, then the opening,
    then one microtask per chunk. *)
Definition send_before_open (i : nat) (blobs : list string) : list Transcribe.Event :=
  (Transcribe.SendAudio <$> blobs)
  ++ [Transcribe.Opened i]
  ++ replicate (length blobs) (Transcribe.Microtask None).

(** The number of connection requests of a trace given in full. *)
Ltac count_connects n :=
  match goal with
  | |- context [Transcribe.connects ?t] => change (Transcribe.connects t) with n
  end.

(** ** The mode components that call the orchestration layer *)

(** [err instanceof Error ? err.message : 'An unknown error occurred.'], the
    idiom of every [catch] block of the components.  [Error] and [TypeError]
    values are [Error] objects; whether what a [ProviderError] stands for is
    one depends on who rejected, which [foreign_is_error] says. *)
Definition caught_message (foreign_is_error : bool) (err : JsError) : string :=
  match err with
  | Error m | TypeError m => m
  | ProviderError m => if foreign_is_error then m else "An unknown error occurred."
  end.

(** Leading and trailing white space of ASCII removed: what
    [String.prototype.trim] does to a string of ASCII characters.  The
    components below take the trimming function as an argument. *)
Definition is_space (c : ascii) : bool :=
  let n := nat_of_ascii c in
  (n =? 32)%nat || ((9 <=? n)%nat && (n <=? 13)%nat).

Fixpoint trim_start (s : string) : string :=
  match s with
  | EmptyString => EmptyString
  | String c rest => if is_space c then trim_start rest else s
  end.

Fixpoint trim_end (s : string) : string :=
  match s with
  | EmptyString => EmptyString
  | String c rest =>
      match trim_end rest with
      | EmptyString => if is_space c then EmptyString else String c EmptyString
      | kept => String c kept
      end
  end.

Definition trim_ascii (s : string) : string := trim_end (trim_start s).

(** [haystack.includes(needle)] *)
Fixpoint includes (needle haystack : string) : bool :=
  String.prefix needle haystack
  || match haystack with
     | EmptyString => false
     | String _ rest => includes needle rest
     end.

Module TranscribeUi.

(** The two pieces of text that [TranscribeMode] shows: the interim
    transcript and the committed one. *)
Record View : Type := { transcript : string; finalTranscript : string }.

(** The [onTranscriptionUpdate] callback that [TranscribeMode] passes to
    [startTranscriptionSession]. *)
Definition onTranscriptionUpdate_ui (text : string) (isFinal : bool) (v : View) : View :=
  if isFinal
  then {| transcript := ""; finalTranscript := (finalTranscript v +:+ text) +:+ " " |}
  else {| transcript := text; finalTranscript := finalTranscript v |}.

(** The effect of a callback on the two pieces of text ([onError] and
    [onClose] touch neither). *)
Definition receive (c : CallbackCall) (v : View) : View :=
  match c with
  | onTranscriptionUpdate text isFinal => onTranscriptionUpdate_ui text isFinal v
  | onError _ | onClose => v
  end.

(** The messages of one session, handled one after the other by [onmessage]
    with the callbacks of [TranscribeMode]. *)
Fixpoint hear (messages : list Transcribe.LiveServerMessage) (buffer : string) (v : View)
  : string * View :=
  match messages with
  | [] => (buffer, v)
  | m :: rest =>
      let '(buffer', calls) := Transcribe.onmessage m buffer in
      hear rest buffer' (foldl (λ v c, receive c v) v calls)
  end.

End TranscribeUi.

Module ChatUi.

Inductive Role : Type := user | model.

Record Message : Type := { role : Role; text : string }.

Record View : Type := {
  messages : list Message;
  isLoading : bool;
  error : option string;
  personality : ChatPersonality
}.

Definition initialMessage : Message :=
  {| role := model;
     text := "Hello! I'm your friendly Mani Ai assistant. Choose a personality and let's chat!" |}.

Definition initial : View :=
  {| messages := [initialMessage]; isLoading := false; error := None;
     personality := standard |}.

Definition apology : Message :=
  {| role := model;
     text := "Sorry, I'm having trouble connecting right now. Please try again later." |}.

(** [handleSendMessage], from the input to the state after the [finally]
    block (or, when the reply never comes, to the state it waits in), with
    nothing done in the component while the reply is awaited; [exchange]
    below has the actions taken during the wait. *)
Definition handleSendMessage (trim : string → string) (foreign_is_error : bool)
    (env : Env) (reply : Response string) (inputText : string)
    (v : View) (s : ChatCache.Store) : View * ChatCache.Store * Trace :=
  if negb (truthy (Some (trim inputText))) then (v, s, [])
  else
    let userMessage := {| role := user; text := inputText |} in
    let '(s', (t, outcome)) :=
      ChatCache.sendMessageToAI env reply inputText (personality v) s in
    match outcome with
    | Return aiResponse =>
        ({| messages := (messages v ++ [userMessage])
                        ++ [{| role := model; text := aiResponse |}];
            isLoading := false; error := None; personality := personality v |}, s', t)
    | Throw err =>
        ({| messages := (messages v ++ [userMessage]) ++ [apology];
            isLoading := false;
            error := Some ("Failed to get response from Mani Ai: "
                           +:+ caught_message foreign_is_error err);
            personality := personality v |}, s', t)
    | Pending =>
        ({| messages := messages v ++ [userMessage];
            isLoading := true; error := None; personality := personality v |}, s', t)
    end.

Definition handleClearChat (v : View) (s : ChatCache.Store) : View * ChatCache.Store :=
  if (1 <? length (messages v))%nat
  then ({| messages := [initialMessage]; isLoading := false; error := None;
           personality := personality v |},
        ChatCache.clearChatHistory (personality v) s)
  else (v, s).

Definition setPersonality (p : ChatPersonality) (v : View) : View :=
  {| messages := messages v; isLoading := isLoading v; error := error v;
     personality := p |}.

(** What the user can do in the chat mode. *)
Inductive Action : Type :=
| Submit (env : Env) (reply : Response string) (inputText : string)
| ClearChat
| Select (p : ChatPersonality).

Definition act (trim : string → string) (foreign_is_error : bool) (a : Action)
    (vs : View * ChatCache.Store) : View * ChatCache.Store :=
  match a with
  | Submit env reply inputText =>
      (handleSendMessage trim foreign_is_error env reply inputText vs.1 vs.2).1
  | ClearChat => handleClearChat vs.1 vs.2
  | Select p => (setPersonality p vs.1, vs.2)
  end.

Definition session (trim : string → string) (foreign_is_error : bool)
    (actions : list Action) : View * ChatCache.Store :=
  foldl (λ vs a, act trim foreign_is_error a vs) (initial, ChatCache.init) actions.

(** [handleSendMessage] awaits [sendMessageToAI], and while it waits the
    component stays in use: the Clear Chat button is enabled as soon as the
    user message is in the list, and the personality can be selected.

    [settled] is what [handleSendMessage] does after its [await], on the view
    as it is by then: every [setMessages] of the handler is an update of the
    previous list. *)
Definition settled (foreign_is_error : bool) (outcome : Outcome string) (v : View) : View :=
  match outcome with
  | Return aiResponse =>
      {| messages := messages v ++ [{| role := model; text := aiResponse |}];
         isLoading := false; error := error v; personality := personality v |}
  | Throw err =>
      {| messages := messages v ++ [apology];
         isLoading := false;
         error := Some ("Failed to get response from Mani Ai: "
                        +:+ caught_message foreign_is_error err);
         personality := personality v |}
  | Pending => v
  end.

(** One exchange: [handleSendMessage] up to the [await] (with the first step
    of [sendMessageToAI]), then what is done during the wait, then the second
    step of [sendMessageToAI] and the rest of the handler.  [during] is what
    the wait does to the view and to the cache: any actions in the component
    ([foldl] of [act] over them), the two steps of other exchanges, or
    nothing.  The personality of the turn is the one selected when the message
    was submitted.  When the session cannot be created nothing is waited for:
    the promise is rejected at once and the handler goes on before any other
    event.  The trace is that of this turn alone. *)
Definition exchange (trim : string → string) (foreign_is_error : bool)
    (env : Env) (reply : Response string) (inputText : string)
    (during : View * ChatCache.Store → View * ChatCache.Store)
    (v : View) (s : ChatCache.Store)
  : View * ChatCache.Store * Trace :=
  if negb (truthy (Some (trim inputText))) then (v, s, [])
  else
    let userMessage := {| role := user; text := inputText |} in
    let waiting := {| messages := messages v ++ [userMessage];
                      isLoading := true; error := None;
                      personality := personality v |} in
    let '(s1, (t, started)) := ChatTurn.start env inputText (personality v) s in
    match started with
    | Return _ =>
        let '(v2, s2) := during (waiting, s1) in
        let '(s3, (t', outcome)) := ChatTurn.resume reply (personality v) s2 in
        (settled foreign_is_error outcome v2, s3, t ++ t')
    | Throw e => (settled foreign_is_error (Throw e) waiting, s1, t)
    | Pending => (waiting, s1, t)
    end.

End ChatUi.

Module VideoUi.

Inductive Status : Type := idle | generating | fetching_asset | completed_video | failed.

Record Banner : Type := { message : string; isQuotaError : bool }.

Record View : Type := {
  status : Status;
  videoUrl : option string;
  error : option Banner;
  apiKeyOk : bool
}.

(** The body of the [for await] loop of [handleSubmit]. *)
Definition consume (v : View) (update : VideoEvent) : View :=
  match update with
  | fetching =>
      {| status := fetching_asset; videoUrl := videoUrl v; error := error v;
         apiKeyOk := apiKeyOk v |}
  | completed url =>
      if truthy (Some url)
      then {| status := completed_video; videoUrl := Some url; error := error v;
              apiKeyOk := apiKeyOk v |}
      else v
  end.

Definition quota_banner : Banner :=
  {| message := "You've exceeded your video generation quota. Please check your plan and billing details, or try again later.";
     isQuotaError := true |}.

Definition key_banner : Banner :=
  {| message := "Your API key may be invalid or missing required permissions. Please select a valid key.";
     isQuotaError := false |}.

(** The [catch] block of [handleSubmit], from the message of the error. *)
Definition classify (errorMessage : string) (v : View) : View :=
  if includes "RESOURCE_EXHAUSTED" errorMessage
     || includes "exceeded your current quota" errorMessage
  then {| status := failed; videoUrl := videoUrl v; error := Some quota_banner;
          apiKeyOk := apiKeyOk v |}
  else if includes "Requested entity was not found" errorMessage
  then {| status := failed; videoUrl := videoUrl v; error := Some key_banner;
          apiKeyOk := false |}
  else {| status := failed; videoUrl := videoUrl v;
          error := Some {| message := "Failed to generate video: " +:+ errorMessage;
                           isQuotaError := false |};
          apiKeyOk := apiKeyOk v |}.

(** The form as it is first shown, once a key has been selected. *)
Definition ready : View :=
  {| status := idle; videoUrl := None; error := None; apiKeyOk := true |}.

Definition may_submit (st : Status) : bool :=
  match st with
  | idle | completed_video | failed => true
  | generating | fetching_asset => false
  end.

(** [handleSubmit] of [VideoMode], from the form to the state it ends in. *)
Definition handleSubmit (trim : string → string) (foreign_is_error : bool)
    (env : Env) (w : VideoGen.World) (prompt : string)
    (aspectRatio : VideoGen.VideoAspect) (imageFile : option File) (v : View) : View :=
  if (negb (truthy (Some (trim prompt))) && negb (bool_decide (is_Some imageFile)))
     || negb (may_submit (status v))
  then v
  else
    let started := {| status := generating; videoUrl := None; error := None;
                      apiKeyOk := apiKeyOk v |} in
    let '(t, outcome) :=
      VideoGen.generateVideo env w prompt
        {| VideoGen.aspectRatio := aspectRatio; VideoGen.imageFile := imageFile |} in
    let shown := foldl consume started (VideoGen.yields t) in
    match outcome with
    | Throw err => classify (caught_message foreign_is_error err) shown
    | _ => shown
    end.

End VideoUi.

(** * Properties *)

(** ** The run monad *)

Lemma no_remote_nil : no_remote [].
Proof. reflexivity. Qed.

Lemma no_remote_app (t1 t2 : Trace) :
  no_remote t1 → no_remote t2 → no_remote (t1 ++ t2).
Proof.
  unfold no_remote. intros H1 H2. by rewrite filter_app, H1, H2.
Qed.

(** ** Chat session cache *)

Section ChatCacheFacts.
Import ChatCache.

Lemma wf_init : wf init.
Proof. intros p c. unfold init; simpl. by rewrite lookup_empty. Qed.

Lemma clearChatHistory_lookup (p : ChatPersonality) (s : Store) :
  chats (clearChatHistory p s) !! p = None.
Proof. simpl. apply lookup_delete_eq. Qed.

Lemma clearChatHistory_other (p q : ChatPersonality) (s : Store) :
  p ≠ q → chats (clearChatHistory p s) !! q = chats s !! q.
Proof. intros Hne. simpl. by apply lookup_delete_ne. Qed.

Lemma clearChatHistory_absent (p : ChatPersonality) (s : Store) :
  chats s !! p = None → clearChatHistory p s = s.
Proof.
  intros Hnone. destruct s as [m n]; unfold clearChatHistory; simpl in *.
  f_equal. by apply delete_id.
Qed.

Lemma clearChatHistory_wf (p : ChatPersonality) (s : Store) :
  wf s → wf (clearChatHistory p s).
Proof.
  intros Hwf q c Hq. simpl in *.
  apply lookup_delete_Some in Hq as [_ Hq]. by apply (Hwf q).
Qed.

Lemma getChatInstance_hit (env : Env) (p : ChatPersonality) (s : Store) (c : Chat) :
  chats s !! p = Some c → getChatInstance env p s = (s, Return c).
Proof. intros Hc. unfold getChatInstance. by rewrite Hc. Qed.

Lemma getChatInstance_miss (env : Env) (p : ChatPersonality) (s : Store) :
  chats s !! p = None →
  truthy (API_KEY env) = true →
  ∃ c, getChatInstance env p s
       = ({| chats := <[p := c]> (chats s); allocated := S (allocated s) |}, Return c)
       ∧ chat_ref c = allocated s
       ∧ chat_model c = model_of p.
Proof.
  intros Hnone Hkey. unfold getChatInstance. rewrite Hnone, Hkey. simpl.
  eexists. split; [reflexivity | by split].
Qed.

Lemma getChatInstance_no_key (env : Env) (p : ChatPersonality) (s : Store) :
  chats s !! p = None →
  truthy (API_KEY env) = false →
  getChatInstance env p s = (s, Throw missing_key).
Proof. intros Hnone Hkey. unfold getChatInstance. by rewrite Hnone, Hkey. Qed.

(** Whatever [getChatInstance] returns is stored under the personality. *)
Lemma getChatInstance_stored (env : Env) (p : ChatPersonality) (s s1 : Store) (c : Chat) :
  getChatInstance env p s = (s1, Return c) → chats s1 !! p = Some c.
Proof.
  unfold getChatInstance. destruct (chats s !! p) as [c0|] eqn:Hp.
  - intros [= <- <-]. done.
  - destruct (negb (truthy (API_KEY env))); [discriminate|].
    intros [= <- <-]. simpl. apply lookup_insert_eq.
Qed.

Lemma getChatInstance_grows (env : Env) (p : ChatPersonality) (s s1 : Store) (o : Outcome Chat) :
  getChatInstance env p s = (s1, o) → (allocated s <= allocated s1)%nat.
Proof.
  unfold getChatInstance. destruct (chats s !! p).
  - intros [= <- _]. lia.
  - destruct (negb (truthy (API_KEY env))); intros [= <- _]; simpl; lia.
Qed.

Lemma getChatInstance_wf (env : Env) (p : ChatPersonality) (s s1 : Store) (o : Outcome Chat) :
  wf s → getChatInstance env p s = (s1, o) → wf s1.
Proof.
  intros Hwf. unfold getChatInstance. destruct (chats s !! p) as [c0|] eqn:Hp.
  - by intros [= <- _].
  - destruct (negb (truthy (API_KEY env))); intros [= <- _]; [done|].
    intros q c Hq. simpl in *.
    destruct (decide (p = q)) as [->|Hne].
    + rewrite lookup_insert_eq in Hq. injection Hq as <-. simpl. lia.
    + rewrite lookup_insert_ne in Hq by done. apply Hwf in Hq. lia.
Qed.

(** The three ways [sendMessageToAI] can end. *)
Lemma sendMessageToAI_cases (env : Env) (reply : Response string) (message : string)
    (p : ChatPersonality) (s : Store) :
  (∃ s1 c text, getChatInstance env p s = (s1, Return c) ∧ reply = inr text
     ∧ sendMessageToAI env reply message p s
       = (s1, ([Remote (ChatSend (chat_ref c) message)], Return text)))
  ∨ (∃ s1 c e, getChatInstance env p s = (s1, Return c) ∧ reply = inl e
     ∧ sendMessageToAI env reply message p s
       = (clearChatHistory p s1,
          ([Remote (ChatSend (chat_ref c) message);
            Console ErrorLevel "Error sending message to Gemini:"], Throw send_failure)))
  ∨ (getChatInstance env p s = (s, Throw missing_key)
     ∧ sendMessageToAI env reply message p s
       = (clearChatHistory p s,
          ([Console ErrorLevel "Error sending message to Gemini:"], Throw send_failure))).
Proof.
  unfold sendMessageToAI.
  destruct (getChatInstance env p s) as [s1 got] eqn:Hget.
  destruct got as [c|e|].
  - destruct reply as [e|text].
    + right; left. by exists s1, c, e.
    + left. by exists s1, c, text.
  - right; right.
    unfold getChatInstance in Hget. destruct (chats s !! p); [discriminate|].
    destruct (negb (truthy (API_KEY env))); [|discriminate].
    by injection Hget as <- <-.
  - unfold getChatInstance in Hget. destruct (chats s !! p); [discriminate|].
    destruct (negb (truthy (API_KEY env))); discriminate.
Qed.

Lemma sendMessageToAI_wf (env : Env) (reply : Response string) (message : string)
    (p : ChatPersonality) (s s' : Store) (r : Run string) :
  wf s → sendMessageToAI env reply message p s = (s', r) → wf s'.
Proof.
  intros Hwf Hsend.
  destruct (sendMessageToAI_cases env reply message p s)
    as [(s1 & c & text & Hget & _ & Heq) | [(s1 & c & e & Hget & _ & Heq) | [Hget Heq]]];
    rewrite Heq in Hsend; injection Hsend as <- _.
  - by eapply getChatInstance_wf.
  - apply clearChatHistory_wf. by eapply getChatInstance_wf.
  - by apply clearChatHistory_wf.
Qed.

End ChatCacheFacts.

Section ChatCacheClaims.
Import ChatCache.

(** C4.  For every personality, a second [getChatInstance] that follows a
    first one with no eviction in between returns the same instance and leaves
    the cache as it was; after [clearChatHistory] the next [getChatInstance]
    constructs an instance that is none of those cached before; and
    [clearChatHistory] of a personality without a session changes nothing. *)
Theorem getChatInstance_same_until_cleared
    (env : Env) (p : ChatPersonality) (s s1 : Store) (c : Chat) :
  wf s →
  getChatInstance env p s = (s1, Return c) →
  (∀ env', getChatInstance env' p s1 = (s1, Return c))
  ∧ (∀ env', truthy (API_KEY env') = true →
       ∃ c' s2, getChatInstance env' p (clearChatHistory p s1) = (s2, Return c')
                ∧ chats s2 !! p = Some c'
                ∧ chat_ref c' ≠ chat_ref c
                ∧ ∀ q c0, chats s1 !! q = Some c0 → chat_ref c' ≠ chat_ref c0)
  ∧ (∀ q s0, chats s0 !! q = None → clearChatHistory q s0 = s0).
Proof.
  intros Hwf Hget.
  pose proof (getChatInstance_stored _ _ _ _ _ Hget) as Hstored.
  pose proof (getChatInstance_wf _ _ _ _ _ Hwf Hget) as Hwf1.
  split; [|split].
  - intros env'. by apply getChatInstance_hit.
  - intros env' Hkey.
    destruct (getChatInstance_miss env' p (clearChatHistory p s1)
                (clearChatHistory_lookup p s1) Hkey) as (c' & Hnew & Href & _).
    eexists c', _. split; [exact Hnew|]. simpl in Href.
    split; [simpl; apply lookup_insert_eq|].
    split.
    + apply Hwf1 in Hstored. lia.
    + intros q c0 Hq. apply Hwf1 in Hq. lia.
  - intros q s0. apply clearChatHistory_absent.
Qed.

Lemma getChatInstance_same_until_cleared_witness :
  ∃ c, getChatInstance with_key fast init
       = ({| chats := {[ fast := c ]}; allocated := 1 |}, Return c)
       ∧ getChatInstance without_key fast {| chats := {[ fast := c ]}; allocated := 1 |}
         = ({| chats := {[ fast := c ]}; allocated := 1 |}, Return c).
Proof.
  eexists. split; [reflexivity|].
  exact (proj1 (getChatInstance_same_until_cleared with_key fast init _ _
                  wf_init eq_refl) without_key).
Defined.

(** C3.  For every personality, when a turn fails, because the send is
    rejected or because the session cannot be created, the error reaches the
    caller with no session cached for that personality, and the next
    [getChatInstance] constructs a fresh instance: none of the sessions cached
    before the turn, and not the session that the failed turn was sent
    through, also when the failed turn had constructed that session itself. *)
Theorem sendMessageToAI_failure_evicts
    (env : Env) (reply : Response string) (message : string)
    (p : ChatPersonality) (s : Store) :
  wf s →
  (∃ cause, reply = inl cause) ∨ (chats s !! p = None ∧ truthy (API_KEY env) = false) →
  ∃ s' t,
    sendMessageToAI env reply message p s = (s', (t, Throw send_failure))
    ∧ chats s' !! p = None
    ∧ ∀ env', truthy (API_KEY env') = true →
        ∃ c' s2, getChatInstance env' p s' = (s2, Return c')
                 ∧ chats s2 !! p = Some c'
                 ∧ (∀ q c0, chats s !! q = Some c0 → chat_ref c0 ≠ chat_ref c')
                 ∧ (∀ s1 used, getChatInstance env p s = (s1, Return used) →
                      chat_ref used ≠ chat_ref c')
                 ∧ (∀ chat m, Remote (ChatSend chat m) ∈ t → chat ≠ chat_ref c').
Proof.
  intros Hwf Hcause.
  assert (Hfresh : ∀ s', chats s' !! p = None → ∀ env', truthy (API_KEY env') = true →
            ∃ c' s2, getChatInstance env' p s' = (s2, Return c')
                     ∧ chats s2 !! p = Some c' ∧ chat_ref c' = allocated s').
  { intros s' Hnone env' Hkey.
    destruct (getChatInstance_miss env' p s' Hnone Hkey) as (c' & Hnew & Href & _).
    eexists c', _. split; [exact Hnew|]. split; [simpl; apply lookup_insert_eq | exact Href]. }
  destruct (sendMessageToAI_cases env reply message p s)
    as [(s1 & c & text & Hget & Hreply & Heq) | [(s1 & c & e0 & Hget & _ & Heq) | [Hget Heq]]].
  - exfalso. destruct Hcause as [[cause Hc] | [Hnone Hkey]]; [congruence|].
    rewrite (getChatInstance_no_key env p s Hnone Hkey) in Hget. discriminate.
  - pose proof (getChatInstance_wf _ _ _ _ _ Hwf Hget) as Hwf1.
    pose proof (getChatInstance_grows _ _ _ _ _ Hget) as Hgrow.
    pose proof (getChatInstance_stored _ _ _ _ _ Hget) as Hstored.
    apply Hwf1 in Hstored.
    eexists _, _. split; [exact Heq|].
    split; [apply clearChatHistory_lookup|].
    intros env' Hkey.
    destruct (Hfresh (clearChatHistory p s1) (clearChatHistory_lookup p s1) env' Hkey)
      as (c' & s2 & Hnew & Hc' & Href).
    simpl in Href. exists c', s2.
    split; [exact Hnew|]. split; [exact Hc'|]. split; [|split].
    + intros q c0 Hq. apply Hwf in Hq. lia.
    + intros s0 used Hused. rewrite Hget in Hused. injection Hused as _ <-. lia.
    + intros chat m Hin.
      apply elem_of_cons in Hin as [Hin|Hin]; [injection Hin as -> _; lia|].
      apply elem_of_cons in Hin as [Hin|Hin]; [discriminate|].
      by apply elem_of_nil in Hin.
  - eexists _, _. split; [exact Heq|].
    split; [apply clearChatHistory_lookup|].
    intros env' Hkey.
    destruct (Hfresh (clearChatHistory p s) (clearChatHistory_lookup p s) env' Hkey)
      as (c' & s2 & Hnew & Hc' & Href).
    simpl in Href. exists c', s2.
    split; [exact Hnew|]. split; [exact Hc'|]. split; [|split].
    + intros q c0 Hq. apply Hwf in Hq. lia.
    + intros s0 used Hused. rewrite Hget in Hused. discriminate.
    + intros chat m Hin.
      apply elem_of_cons in Hin as [Hin|Hin]; [discriminate|].
      by apply elem_of_nil in Hin.
Qed.

Lemma sendMessageToAI_failure_evicts_witness :
  ∃ s' t,
    sendMessageToAI with_key (inl (ProviderError "503")) "hello" creative init
    = (s', (t, Throw send_failure))
    ∧ chats s' !! creative = None
    ∧ allocated s' = 1%nat.
Proof.
  destruct (sendMessageToAI_failure_evicts with_key (inl (ProviderError "503")) "hello"
              creative init wf_init (or_introl (ex_intro _ (ProviderError "503") eq_refl)))
    as (s' & t & Hrun & Hnone & _).
  exists s', t. split; [exact Hrun|]. split; [exact Hnone|].
  by injection Hrun as <- _.
Defined.



End ChatCacheClaims.

(** ** Video generation orchestrator *)

Section VideoGenFacts.
Import VideoGen.

Lemma run_bind_return {A B} (t : Trace) (a : A) (k : A → Run B) :
  ((t, Return a) ≫= k) = (t ++ (k a).1, (k a).2).
Proof. unfold mbind, run_bind. by destruct (k a). Qed.

Lemma poll_done (operation : Operation) (answers : list (Response Operation)) :
  truthy_flag (done operation) = true → poll operation answers = ([], Return operation).
Proof. intros Hd. destruct answers; simpl; by rewrite Hd. Qed.

Lemma poll_answered (operation next : Operation) (rest : list (Response Operation)) :
  truthy_flag (done operation) = false →
  poll operation (inr next :: rest)
  = (poll_round operation ++ (poll next rest).1, (poll next rest).2).
Proof.
  intros Hd. simpl. rewrite Hd.
  unfold await_remote, emit, settle, try_catch. simpl.
  unfold mbind, run_bind; simpl. by destruct (poll next rest).
Qed.

Lemma poll_rejected (operation : Operation) (e : JsError) (rest : list (Response Operation)) :
  truthy_flag (done operation) = false →
  poll operation (inl e :: rest)
  = (poll_round operation ++ [Console ErrorLevel "Error polling video operation:"], Throw e).
Proof. intros Hd. simpl. by rewrite Hd. Qed.

Lemma poll_unanswered (operation : Operation) :
  truthy_flag (done operation) = false →
  poll operation [] = (poll_round operation, Pending).
Proof. intros Hd. simpl. by rewrite Hd. Qed.

(** The loop queries once per operation that is not done and stops at the
    first one that is. *)
Lemma poll_until_done (pending : list Operation) :
  ∀ (first final : Operation) (later : list (Response Operation)),
    Forall (λ op, truthy_flag (done op) = false) (first :: pending) →
    truthy_flag (done final) = true →
    poll first ((inr <$> pending) ++ inr final :: later)
    = (flat_map poll_round (first :: pending), Return final).
Proof.
  induction pending as [|next pending IH]; intros first final later Hnot Hdone.
  - apply Forall_cons in Hnot as [Hfirst _].
    simpl fmap. simpl app. rewrite poll_answered by done.
    rewrite poll_done by done. reflexivity.
  - apply Forall_cons in Hnot as [Hfirst Hrest].
    change ((inr <$> next :: pending) ++ inr final :: later)
      with (inr next :: ((inr <$> pending) ++ inr final :: later)).
    rewrite poll_answered by done.
    rewrite (IH next final later Hrest Hdone). reflexivity.
Qed.


Lemma yields_app (t1 t2 : Trace) : yields (t1 ++ t2) = yields t1 ++ yields t2.
Proof. apply omap_app. Qed.

Lemma count_polls_app (t1 t2 : Trace) :
  count_polls (t1 ++ t2) = (count_polls t1 + count_polls t2)%nat.
Proof. unfold count_polls. by rewrite filter_app, length_app. Qed.

Lemma count_fetches_app (t1 t2 : Trace) :
  count_fetches (t1 ++ t2) = (count_fetches t1 + count_fetches t2)%nat.
Proof. unfold count_fetches. by rewrite filter_app, length_app. Qed.

Lemma poll_rounds_trace (ops : list Operation) :
  yields (flat_map poll_round ops) = []
  ∧ count_polls (flat_map poll_round ops) = length ops
  ∧ count_fetches (flat_map poll_round ops) = 0%nat.
Proof.
  induction ops as [|op ops (IHy & IHp & IHf)]; [done|].
  change (flat_map poll_round (op :: ops)) with (poll_round op ++ flat_map poll_round ops).
  rewrite yields_app, count_polls_app, count_fetches_app, IHy, IHp, IHf.
  done.
Qed.

(** While it polls, the generator yields nothing and fetches nothing. *)
Lemma poll_quiet (answers : list (Response Operation)) :
  ∀ operation, yields (poll operation answers).1 = []
               ∧ count_fetches (poll operation answers).1 = 0%nat.
Proof.
  induction answers as [|answer rest IH]; intros operation;
    destruct (truthy_flag (done operation)) eqn:Hd.
  - by rewrite poll_done.
  - by rewrite poll_unanswered.
  - by rewrite poll_done.
  - destruct answer as [e|next].
    + by rewrite poll_rejected.
    + rewrite poll_answered by done. destruct (IH next) as [IHy IHf].
      cbn [fst]. rewrite yields_app, count_fetches_app, IHy, IHf. done.
Qed.

(** Up to the end of the polling loop. *)
Lemma generateVideo_polled (env : Env) (w : World) (prompt : string)
    (config : VideoConfig) (first final : Operation) (tp : Trace) :
  truthy (API_KEY env) = true →
  image_readable config = true →
  submitted w = inr first →
  poll first (polls w) = (tp, Return final) →
  ∃ pre, generateVideo env w prompt config
         = ((pre ++ tp) ++ (deliver env w final).1, (deliver env w final).2)
         ∧ yields pre = [] ∧ count_polls pre = 0%nat ∧ count_fetches pre = 0%nat.
Proof.
  intros Hkey Himg Hsub Hpoll. unfold generateVideo, image_readable in *.
  rewrite Hkey. cbn [negb].
  destruct (imageFile config) as [f|].
  - unfold Invokers.fileToGenerativePart.
    destruct (file_read f) as [url| |]; try discriminate.
    eexists [ReadAsDataURL f; Remote (GenerateVideos _)].
    rewrite Hsub. unfold await_remote, emit, settle, mbind, run_bind, mret, run_ret.
    cbn [app]. rewrite Hpoll. by destruct (deliver env w final).
  - eexists [Remote (GenerateVideos _)].
    rewrite Hsub. unfold await_remote, emit, settle, mbind, run_bind, mret, run_ret.
    cbn [app]. rewrite Hpoll. by destruct (deliver env w final).
Qed.

Lemma deliver_generation_error (env : Env) (w : World) (operation : Operation)
    (err : OperationError) :
  error operation = Some err →
  deliver env w operation
  = ([], Throw (Error ("Video generation failed: " +:+ message err))).
Proof. intros He. unfold deliver. by rewrite He. Qed.

Lemma deliver_fetch_refused (env : Env) (w : World) (operation : Operation)
    (resp : FetchResponse) :
  error operation = None →
  truthy (download_link operation) = true →
  fetched w = inr resp →
  ok resp = false →
  deliver env w operation
  = ([Yield fetching;
      Remote (Fetch (render (download_link operation) +:+ "&key=" +:+ render (API_KEY env)))],
     Throw (Error ("Failed to fetch video: " +:+ statusText resp))).
Proof.
  intros He Hl Hf Hok. unfold deliver. rewrite He, Hl, Hf. cbn [negb].
  unfold await_remote, emit, settle, mbind, run_bind, mret, run_ret. by rewrite Hok.
Qed.

Lemma deliver_completed (env : Env) (w : World) (operation : Operation)
    (resp : FetchResponse) (bytes : string) :
  error operation = None →
  truthy (download_link operation) = true →
  fetched w = inr resp →
  ok resp = true →
  blob resp = inr bytes →
  deliver env w operation
  = ([Yield fetching;
      Remote (Fetch (render (download_link operation) +:+ "&key=" +:+ render (API_KEY env)));
      Yield (completed (createObjectURL w bytes))],
     Return tt).
Proof.
  intros He Hl Hf Hok Hb. unfold deliver. rewrite He, Hl, Hf. cbn [negb].
  unfold await_remote, emit, settle, mbind, run_bind, mret, run_ret.
  by rewrite Hok, Hb.
Qed.


(** Once the job has finished well, the generator announces the fetch and
    makes it; no status query follows. *)
Lemma deliver_starts_fetching (env : Env) (w : World) (operation : Operation) :
  error operation = None →
  truthy (download_link operation) = true →
  ∃ rest, (deliver env w operation).1
          = Yield fetching
            :: Remote (Fetch (render (download_link operation) +:+ "&key="
                              +:+ render (API_KEY env)))
            :: rest
          ∧ count_polls rest = 0%nat.
Proof.
  intros He Hl. unfold deliver. rewrite He, Hl. cbn [negb].
  unfold await_remote, emit, settle, mbind, run_bind, mret, run_ret.
  destruct (fetched w) as [e|resp]; [by eexists|].
  destruct (ok resp); [|by eexists].
  destruct (blob resp); by eexists.
Qed.

(** C1.  In every run in which the operations seen before the final answer
    (the submission and [pending], any finite number of them) are not done and
    the next answer is done and carries no error and a usable URI, the
    generator issues one status query per operation that was not done and none
    after the answer that was done: all of them precede the [fetching] event,
    and the answers in [later] are never asked for.  When the fetch of that
    URI succeeds, the generator returns having yielded exactly [fetching] and
    then [completed url]. *)
Theorem generateVideo_fetching_then_completed
    (env : Env) (w : World) (prompt : string) (config : VideoConfig)
    (first final : Operation) (pending : list Operation)
    (later : list (Response Operation)) :
  truthy (API_KEY env) = true →
  image_readable config = true →
  submitted w = inr first →
  polls w = (inr <$> pending) ++ inr final :: later →
  Forall (λ op, truthy_flag (done op) = false) (first :: pending) →
  done final = Some true →
  error final = None →
  truthy (download_link final) = true →
  count_polls (run_trace (generateVideo env w prompt config)) = S (length pending)
  ∧ (∃ pre rest,
       run_trace (generateVideo env w prompt config) = pre ++ Yield fetching :: rest
       ∧ yields pre = []
       ∧ count_polls pre = S (length pending)
       ∧ count_polls rest = 0%nat)
  ∧ (∀ resp bytes,
       fetched w = inr resp → ok resp = true → blob resp = inr bytes →
       run_outcome (generateVideo env w prompt config) = Return tt
       ∧ yields (run_trace (generateVideo env w prompt config))
         = [fetching; completed (createObjectURL w bytes)]).
Proof.
  intros Hkey Himg Hsub Hpolls Hnot Hdone Herr Hlink.
  assert (Hpoll : poll first (polls w) = (flat_map poll_round (first :: pending), Return final)).
  { rewrite Hpolls. apply poll_until_done; [done|]. by rewrite Hdone. }
  destruct (generateVideo_polled env w prompt config first final _ Hkey Himg Hsub Hpoll)
    as (pre & Hrun & Hy & Hp & _).
  destruct (poll_rounds_trace (first :: pending)) as (Hry & Hrp & _).
  assert (Hpre : yields (pre ++ flat_map poll_round (first :: pending)) = []
                 ∧ count_polls (pre ++ flat_map poll_round (first :: pending))
                   = S (length pending)).
  { rewrite yields_app, count_polls_app, Hy, Hp, Hry, Hrp. done. }
  destruct Hpre as [Hpy Hpp].
  destruct (deliver_starts_fetching env w final Herr Hlink) as (rest & Hdel & Hrest).
  assert (Htrace : run_trace (generateVideo env w prompt config)
                   = (pre ++ flat_map poll_round (first :: pending))
                     ++ Yield fetching
                        :: Remote (Fetch (render (download_link final) +:+ "&key="
                                          +:+ render (API_KEY env))) :: rest).
  { rewrite Hrun. unfold run_trace. cbn [fst]. by rewrite Hdel. }
  split; [|split].
  - rewrite Htrace, count_polls_app, Hpp.
    change (count_polls (Yield fetching :: Remote (Fetch ?u) :: rest))
      with (count_polls rest). lia.
  - eexists _, _. split; [exact Htrace|]. split; [exact Hpy|]. split; [exact Hpp|].
    exact Hrest.
  - intros resp bytes Hfetch Hok Hblob.
    rewrite (deliver_completed env w final resp bytes Herr Hlink Hfetch Hok Hblob) in Hrun.
    rewrite Hrun. unfold run_outcome, run_trace. cbn [fst snd].
    split; [reflexivity|]. by rewrite yields_app, Hpy.
Qed.

Lemma generateVideo_fetching_then_completed_witness :
  count_polls (run_trace (generateVideo with_key world_two_polls
                            "a cat on a skateboard" text_only)) = 3%nat
  ∧ yields (run_trace (generateVideo with_key world_two_polls
                         "a cat on a skateboard" text_only))
    = [fetching; completed "blob:mp4-bytes"].
Proof.
  destruct (generateVideo_fetching_then_completed with_key world_two_polls
              "a cat on a skateboard" text_only op_running op_ready
              [op_running; op_running] [inr op_running])
    as (Hcount & _ & Hseq);
    try reflexivity; [repeat constructor|].
  split; [exact Hcount|].
  exact (proj2 (Hseq asset_ok "mp4-bytes" eq_refl eq_refl eq_refl)).
Defined.

(** C6.  A job that finishes with an error field makes the generator throw
    [Video generation failed: ...] having yielded nothing and fetched
    nothing; a job that finishes well but whose asset fetch is answered with a
    non-success status makes it throw [Failed to fetch video: ...] after the
    [fetching] event and without a [completed] event; the two errors are
    never equal. *)
Theorem generateVideo_failures_distinguished
    (env : Env) (prompt : string) (config : VideoConfig) (w1 w2 : World)
    (first1 final1 first2 final2 : Operation) (tp1 tp2 : Trace)
    (err : OperationError) (resp : FetchResponse) :
  truthy (API_KEY env) = true →
  image_readable config = true →
  submitted w1 = inr first1 →
  poll first1 (polls w1) = (tp1, Return final1) →
  error final1 = Some err →
  submitted w2 = inr first2 →
  poll first2 (polls w2) = (tp2, Return final2) →
  error final2 = None →
  truthy (download_link final2) = true →
  fetched w2 = inr resp →
  ok resp = false →
  run_outcome (generateVideo env w1 prompt config)
  = Throw (Error ("Video generation failed: " +:+ message err))
  ∧ yields (run_trace (generateVideo env w1 prompt config)) = []
  ∧ count_fetches (run_trace (generateVideo env w1 prompt config)) = 0%nat
  ∧ run_outcome (generateVideo env w2 prompt config)
    = Throw (Error ("Failed to fetch video: " +:+ statusText resp))
  ∧ yields (run_trace (generateVideo env w2 prompt config)) = [fetching]
  ∧ run_outcome (generateVideo env w1 prompt config)
    ≠ run_outcome (generateVideo env w2 prompt config).
Proof.
  intros Hkey Himg Hsub1 Hpoll1 Herr1 Hsub2 Hpoll2 Herr2 Hlink Hfetch Hok.
  destruct (generateVideo_polled env w1 prompt config first1 final1 tp1
              Hkey Himg Hsub1 Hpoll1) as (pre1 & Hrun1 & Hy1 & _ & Hf1).
  destruct (generateVideo_polled env w2 prompt config first2 final2 tp2
              Hkey Himg Hsub2 Hpoll2) as (pre2 & Hrun2 & Hy2 & _ & _).
  rewrite (deliver_generation_error env w1 final1 err Herr1) in Hrun1.
  rewrite (deliver_fetch_refused env w2 final2 resp Herr2 Hlink Hfetch Hok) in Hrun2.
  cbn [fst snd] in Hrun1, Hrun2.
  destruct (poll_quiet (polls w1) first1) as [Hq1 Hqf1]. rewrite Hpoll1 in Hq1, Hqf1.
  destruct (poll_quiet (polls w2) first2) as [Hq2 _]. rewrite Hpoll2 in Hq2.
  cbn [fst] in Hq1, Hqf1, Hq2.
  rewrite Hrun1, Hrun2. unfold run_outcome, run_trace. cbn [fst snd].
  rewrite !yields_app, !count_fetches_app, Hy1, Hq1, Hf1, Hqf1, Hy2, Hq2.
  repeat split; try done.
Qed.

Lemma generateVideo_failures_distinguished_witness :
  run_outcome (generateVideo with_key world_refused "a cat" text_only)
  = Throw (Error "Video generation failed: RESOURCE_EXHAUSTED")
  ∧ yields (run_trace (generateVideo with_key world_refused "a cat" text_only)) = []
  ∧ count_fetches (run_trace (generateVideo with_key world_refused "a cat" text_only)) = 0%nat
  ∧ run_outcome (generateVideo with_key world_denied "a cat" text_only)
    = Throw (Error "Failed to fetch video: Forbidden")
  ∧ yields (run_trace (generateVideo with_key world_denied "a cat" text_only)) = [fetching]
  ∧ run_outcome (generateVideo with_key world_refused "a cat" text_only)
    ≠ run_outcome (generateVideo with_key world_denied "a cat" text_only).
Proof.
  apply (generateVideo_failures_distinguished with_key "a cat" text_only
           world_refused world_denied op_running op_refused op_running op_ready
           (poll_round op_running) (poll_round op_running)
           {| message := "RESOURCE_EXHAUSTED" |} asset_denied);
    reflexivity.
Defined.

End VideoGenFacts.

(** ** Live transcription session manager *)

Section TranscribeFacts.
Import Transcribe.

Lemma truthy_nonempty (s : string) : s ≠ "" → truthy (Some s) = true.
Proof.
  intros Hne. unfold truthy. destruct (String.eqb s "") eqn:Heq; [|done].
  apply String.eqb_eq in Heq. contradiction.
Qed.

Lemma onmessage_fragment (fragment buffer : string) (marker : option bool) :
  truthy_flag marker = false →
  onmessage (fragment_only fragment marker) buffer
  = (fragment, [onTranscriptionUpdate fragment false]).
Proof. intros Hm. unfold onmessage, fragment_only. simpl. by rewrite Hm. Qed.

Lemma onmessage_turn_complete (buffer : string) :
  buffer ≠ "" →
  onmessage turn_complete_only buffer = ("", [onTranscriptionUpdate buffer true]).
Proof.
  intros Hne. unfold onmessage, turn_complete_only. cbn -[truthy].
  by rewrite truthy_nonempty.
Qed.

Lemma onmessage_turn_complete_empty : onmessage turn_complete_only "" = ("", []).
Proof. reflexivity. Qed.

(** An event without the expected fields is ignored. *)
Lemma onmessage_irrelevant (buffer : string) :
  onmessage {| serverContent := None |} buffer = (buffer, [])
  ∧ onmessage {| serverContent := Some {| inputTranscription := None;
                                          turnComplete := None |} |} buffer
    = (buffer, []).
Proof. by split. Qed.

(** C2.  An event carrying only an interim fragment makes exactly one call,
    [onTranscriptionUpdate fragment false], and the buffer becomes the
    fragment; a following event carrying only the turn-complete marker makes
    exactly one call, [onTranscriptionUpdate buffer true], with the buffered
    text and empties the buffer; a turn-complete marker that finds the buffer
    empty makes no call. *)
Theorem onmessage_interim_then_final :
  (∀ fragment buffer marker, truthy_flag marker = false →
     onmessage (fragment_only fragment marker) buffer
     = (fragment, [onTranscriptionUpdate fragment false]))
  ∧ (∀ buffer, buffer ≠ "" →
       onmessage turn_complete_only buffer = ("", [onTranscriptionUpdate buffer true]))
  ∧ (∀ fragment buffer, fragment ≠ "" →
       onmessage turn_complete_only (onmessage (fragment_only fragment None) buffer).1
       = ("", [onTranscriptionUpdate fragment true]))
  ∧ onmessage turn_complete_only "" = ("", []).
Proof.
  split; [|split; [|split]].
  - apply onmessage_fragment.
  - apply onmessage_turn_complete.
  - intros fragment buffer Hne. rewrite onmessage_fragment by done.
    by apply onmessage_turn_complete.
  - apply onmessage_turn_complete_empty.
Qed.

Lemma onmessage_interim_then_final_witness :
  onmessage (fragment_only "hello wor" None) "" = ("hello wor", [onTranscriptionUpdate "hello wor" false])
  ∧ onmessage turn_complete_only "hello wor" = ("", [onTranscriptionUpdate "hello wor" true]).
Proof.
  destruct onmessage_interim_then_final as (Hfrag & Hfinal & _).
  split.
  - apply (Hfrag "hello wor" "" None). reflexivity.
  - apply (Hfinal "hello wor"). discriminate.
Defined.


(** [startTranscriptionSession] with the handle set: a warning, nothing else. *)
Lemma start_while_active (env : Env) (callbacks : nat) (st : State) (i : nat) :
  liveSessionPromise st = Some i →
  startTranscriptionSession env callbacks st
  = (st, [Console WarnLevel "Transcription session already in progress."]).
Proof. intros Hh. unfold startTranscriptionSession. by rewrite Hh. Qed.

(** A connection is requested only when the handle is unset. *)
Lemma start_connects_when_idle (env : Env) (callbacks : nat) (st : State) :
  connects (startTranscriptionSession env callbacks st).2 ≠ 0%nat →
  liveSessionPromise st = None.
Proof.
  unfold startTranscriptionSession. destruct (liveSessionPromise st); [|done].
  intros Hc. by contradict Hc.
Qed.

(** [stopTranscriptionSession] with the handle unset: nothing happens. *)
Lemma stop_while_idle (st : State) :
  liveSessionPromise st = None → stopTranscriptionSession st = (st, []).
Proof. intros Hh. unfold stopTranscriptionSession. by rewrite Hh. Qed.

(** The chain hung by [stopTranscriptionSession] ends by clearing the
    handle, whether the promise was fulfilled or rejected and whether
    [session.close()] threw or not. *)
Lemma stop_chain_clears_handle (st : State) (i : nat) (s : Session)
    (queue : list (nat * Reaction)) (fails : option JsError) :
  microtasks st = (i, StopChain) :: queue →
  sessions st !! i = Some s →
  ∃ st' t, step (Microtask fails) st = Some (st', t) ∧ liveSessionPromise st' = None.
Proof.
  intros Hq Hs. unfold step. rewrite Hq, Hs. cbn [mbind option_bind].
  unfold run_reaction. destruct (promise s), fails; eexists _, _; split; reflexivity.
Qed.

(** [stopTranscriptionSession] hangs its chain on the promise that the
    handle names: among the waiting chains while the promise is unsettled,
    among the microtasks otherwise. *)
Lemma stop_hangs_chain (st : State) (i : nat) (s : Session) :
  liveSessionPromise st = Some i →
  sessions st !! i = Some s →
  let st' := (stopTranscriptionSession st).1 in
  (promise s = Unsettled →
     ∃ s', sessions st' !! i = Some s' ∧ waiting s' = waiting s ++ [StopChain]
           ∧ promise s' = Unsettled ∧ socket s' = socket s)
  ∧ (promise s ≠ Unsettled → microtasks st' = microtasks st ++ [(i, StopChain)]).
Proof.
  intros Hh Hs. unfold stopTranscriptionSession, react. rewrite Hh, Hs. cbn [fst].
  split.
  - intros Hp. rewrite Hp. eexists. split.
    + simpl. apply list_lookup_insert_eq. by eapply lookup_lt_Some.
    + by simpl.
  - intros Hp. by destruct (promise s).
Qed.

(** Stopping a session whose promise has settled: the next microtask clears
    the handle. *)
Lemma stop_settled_clears (st : State) (i : nat) (s : Session) (fails : option JsError) :
  liveSessionPromise st = Some i →
  sessions st !! i = Some s →
  promise s ≠ Unsettled →
  microtasks st = [] →
  ∃ st' t, run [Stop; Microtask fails] st = Some (st', t) ∧ liveSessionPromise st' = None.
Proof.
  intros Hh Hs Hp Hq.
  cbn [run step]. unfold stopTranscriptionSession, react. rewrite Hh, Hs.
  destruct (promise s) eqn:Hps; [done| |];
    cbn [mbind option_bind microtasks sessions]; rewrite Hq; cbn [app];
    rewrite Hs; cbn [mbind option_bind run_reaction]; rewrite Hps;
    destruct fails; eexists _, _; split; reflexivity.
Qed.

(** Stopping a session that is still connecting: once the promise settles,
    by the socket opening or by a rejection, the next microtask clears the
    handle. *)
Lemma stop_connecting_clears (st : State) (i : nat) (s : Session)
    (settles : Event) (fails : option JsError) :
  liveSessionPromise st = Some i →
  sessions st !! i = Some s →
  promise s = Unsettled →
  socket s = Connecting →
  waiting s = [] →
  microtasks st = [] →
  (settles = Opened i ∨ ∃ e, settles = ConnectRejected i e) →
  ∃ st' t, run [Stop; settles; Microtask fails] st = Some (st', t)
           ∧ liveSessionPromise st' = None.
Proof.
  intros Hh Hs Hp Hsock Hw Hq Hsettles.
  assert (Hlt : (i < length (sessions st))%nat) by by eapply lookup_lt_Some.
  cbn [run step]. unfold stopTranscriptionSession, react.
  rewrite Hh, Hs, Hp. cbn [mbind option_bind].
  destruct Hsettles as [-> | [e ->]]; cbn [step set_session sessions];
    rewrite list_lookup_insert_eq by done; cbn [mbind option_bind socket promise];
    rewrite Hsock; cbn [mbind option_bind];
    unfold settle_promise, set_session;
    cbn [microtasks sessions waiting liveSessionPromise];
    rewrite Hq, Hw; simpl;
    rewrite list_lookup_insert_eq by (by rewrite length_insert); simpl;
    destruct fails; eexists _, _; split; reflexivity.
Qed.

(** The close event of one session clears the handle even when the handle
    names another session, and leaves that other session as it is. *)
Lemma stale_close_clears_handle (st : State) (i j : nat) (s : Session) :
  liveSessionPromise st = Some j →
  i ≠ j →
  sessions st !! i = Some s →
  socket s ≠ Closed →
  ∃ st' t, step (SocketClosed i) st = Some (st', t)
           ∧ liveSessionPromise st' = None
           ∧ sessions st' !! j = sessions st !! j.
Proof.
  intros Hh Hne Hs Hsock. unfold step. rewrite Hs. cbn [mbind option_bind].
  destruct (socket s) eqn:Hsk; [| | |done];
    eexists _, _; (split; [reflexivity|]); (split; [reflexivity|]);
    cbn [set_handle set_session sessions]; by apply list_lookup_insert_ne.
Qed.

(** C5.  Starting while the handle is set, stopping while idle and the
    clearing of the handle by the stop chain behave as specified
    ([start_while_active], [stop_while_idle], [stop_chain_clears_handle]), but
    they do not keep sessions from coexisting: on [stale_close_schedule] the
    close event of the stopped first session clears the handle that by then
    names the second session, the third start passes the presence check, and
    two sessions are open at once, three connections having been requested. *)
Theorem stale_close_leaves_two_sessions :
  ∃ st t, run stale_close_schedule init = Some (st, t)
          ∧ socket <$> sessions st = [Closed; Open; Open]
          ∧ length (live_sessions st) = 2%nat
          ∧ connects t = 3%nat
          ∧ liveSessionPromise st = Some 2%nat.
Proof. eexists _, _. split; [reflexivity|]. by repeat split. Qed.

End TranscribeFacts.

(** ** Audio codec utility *)

Section AudioCodecFacts.
Import AudioCodec.

Lemma clamp_inside (x : Q) : (-1 <= x <= 1)%Q → (clamp x == x)%Q.
Proof.
  intros [Hlo Hhi]. unfold clamp.
  destruct (Qle_bool x (-1)) eqn:H1.
  - apply Qle_bool_iff in H1. lra.
  - destruct (Qle_bool 1 x) eqn:H2; [|reflexivity].
    apply Qle_bool_iff in H2. lra.
Qed.

Lemma clamp_range (x : Q) : (-1 <= clamp x <= 1)%Q.
Proof.
  unfold clamp. destruct (Qle_bool x (-1)) eqn:H1; [split; lra|].
  destruct (Qle_bool 1 x) eqn:H2; [split; lra|].
  assert (¬ (x <= -1)%Q) by (rewrite <- Qle_bool_iff, H1; discriminate).
  assert (¬ (1 <= x)%Q) by (rewrite <- Qle_bool_iff, H2; discriminate).
  split; lra.
Qed.

Lemma wrap16_inside (n : Z) : (-32768 <= n <= 32767)%Z → wrap16 n = n.
Proof. intros Hn. unfold wrap16. rewrite Z.mod_small by lia. lia. Qed.

Lemma wrap16_range (n : Z) : (-32768 <= wrap16 n <= 32767)%Z.
Proof. unfold wrap16. pose proof (Z.mod_pos_bound (n + 32768) 65536). lia. Qed.

(** Packing a signed 16-bit integer low byte first and reading it back. *)
Lemma le16_round_trip (n : Z) :
  (-32768 <= n <= 32767)%Z → of_le16 (n mod 256) ((n / 256) mod 256) = n.
Proof.
  intros Hn. unfold of_le16. cbv zeta.
  destruct (Z.ltb_spec (n mod 256 + 256 * ((n / 256) mod 256)) 32768);
    Z.div_mod_to_equations; lia.
Qed.

Lemma le16_bytes (n : Z) :
  Forall (λ b, (0 <= b < 256)%Z) (to_le16 n).
Proof.
  unfold to_le16. repeat constructor; apply Z.mod_pos_bound; lia.
Qed.

Lemma int16_of_encoded (scale : positive) (round : Q → Z) (samples : list Q) :
  int16_of_bytes (encodePcm scale round samples) = map (quantize scale round) samples.
Proof.
  induction samples as [|x xs IH]; [reflexivity|].
  unfold encodePcm in *. cbn [flat_map map]. unfold to_le16 at 1.
  cbn [app int16_of_bytes]. rewrite IH. f_equal.
  apply le16_round_trip, wrap16_range.
Qed.

Lemma Qtrunc_rounding : rounding Qtrunc.
Proof.
  intros [n d]. unfold Qtrunc, Qceiling, Qfloor. cbn [Qnum Qden Qopp].
  destruct (Z.le_gt_cases 0 n) as [Hn|Hn].
  - rewrite Z.quot_div_nonneg by lia.
    split; [lia|].
    pose proof (Qle_floor_ceiling (n # d)) as H. rewrite <- Zle_Qle in H.
    unfold Qceiling, Qfloor in H. exact H.
  - assert (Hq : (n `quot` Z.pos d = - ((- n) `div` Z.pos d))%Z).
    { rewrite <- (Z.opp_involutive n) at 1.
      rewrite Z.quot_opp_l by lia. by rewrite Z.quot_div_nonneg by lia. }
    rewrite Hq. split; [|lia].
    pose proof (Qle_floor_ceiling (n # d)) as H. rewrite <- Zle_Qle in H.
    unfold Qceiling, Qfloor in H. exact H.
Qed.

(** The integer that a sample in range is quantized to is within one unit of
    the scaled sample, and needs no wrap-around. *)
Lemma quantize_close (scale : positive) (round : Q → Z) (x : Q) :
  (scale <= 32767)%positive →
  rounding round →
  (-1 <= x <= 1)%Q →
  (inject_Z (quantize scale round x) - 1 < x * inject_Z (Zpos scale)
   < inject_Z (quantize scale round x) + 1)%Q.
Proof.
  intros Hscale Hround Hx. unfold quantize.
  set (K := inject_Z (Z.pos scale)).
  assert (HK : (0 < K)%Q) by (unfold K; rewrite <- (Zlt_Qlt 0); lia).
  assert (Hq : (clamp x * K == x * K)%Q) by (by rewrite clamp_inside).
  set (q := (clamp x * K)%Q) in *.
  assert (Hqr : (- K <= q <= K)%Q).
  { rewrite Hq. destruct Hx. split; nra. }
  destruct (Hround q) as [Hfl Hce].
  assert (Hlow : (- Z.pos scale <= Qfloor q)%Z).
  { rewrite <- (Qfloor_Z (- Z.pos scale)). apply Qfloor_resp_le.
    rewrite inject_Z_opp. apply Hqr. }
  assert (Hhigh : (Qceiling q <= Z.pos scale)%Z).
  { rewrite <- (Qceiling_Z (Z.pos scale)). apply Qceiling_resp_le. apply Hqr. }
  rewrite wrap16_inside by lia.
  pose proof (Qlt_floor q) as Hf. pose proof (Qceiling_lt q) as Hc.
  rewrite inject_Z_plus in Hf. unfold Z.sub in Hc. rewrite inject_Z_plus in Hc.
  rewrite Zle_Qle in Hfl, Hce. rewrite <- Hq.
  change (inject_Z 1) with 1%Q in Hf. change (inject_Z (- (1))%Z) with (- (1))%Q in Hc.
  split; lra.
Qed.

Lemma dequantize_close (scale : positive) (n : Z) (x : Q) :
  (inject_Z n - 1 < x * inject_Z (Zpos scale) < inject_Z n + 1)%Q →
  (Qabs ((n # scale) - x) < quantization_step scale)%Q.
Proof.
  intros [Hlo Hhi]. unfold quantization_step.
  set (K := inject_Z (Z.pos scale)) in *.
  assert (HK : (0 < K)%Q) by (unfold K; rewrite <- (Zlt_Qlt 0); lia).
  assert (Hn : (n # scale == inject_Z n * / K)%Q) by apply Qmake_Qdiv.
  assert (H1 : (1 # scale == / K)%Q).
  { rewrite (Qmake_Qdiv 1 scale). unfold Qdiv. change (inject_Z 1) with 1%Q.
    apply Qmult_1_l. }
  assert (Hinv : (0 < / K)%Q) by by apply Qinv_lt_0_compat.
  assert (HKinv : (K * / K == 1)%Q) by (apply Qmult_inv_r; lra).
  rewrite Hn, H1. set (Kinv := (/ K)%Q) in *.
  assert (Hx : (x == (x * K) * Kinv)%Q).
  { rewrite <- Qmult_assoc, HKinv. ring. }
  rewrite Hx. set (y := (x * K)%Q) in *.
  apply Qabs_Qlt_condition. split; nra.
Qed.


Lemma decode_encoded (scale : positive) (round : Q → Z) (samples : list Q) :
  decodePcm scale (encodePcm scale round samples)
  = map (λ x, quantize scale round x # scale) samples.
Proof. unfold decodePcm. by rewrite int16_of_encoded, map_map. Qed.

(** The encoder writes two bytes per sample, each in the range of a byte. *)
Lemma encodePcm_bytes (scale : positive) (round : Q → Z) (samples : list Q) :
  length (encodePcm scale round samples) = (2 * length samples)%nat
  ∧ Forall (λ b, (0 <= b < 256)%Z) (encodePcm scale round samples).
Proof.
  unfold encodePcm. induction samples as [|x xs [IHl IHb]]; [by split|].
  cbn [flat_map]. split.
  - rewrite length_app, IHl. simpl. lia.
  - apply Forall_app. split; [apply le16_bytes | exact IHb].
Qed.

(** A scale above 32767 leaves the signed 16-bit range: the sample 1 wraps
    around to the most negative value. *)
Lemma scale_32768_wraps : quantize 32768 Qtrunc 1 = (-32768)%Z.
Proof. reflexivity. Qed.

(** C9.  For every sequence of samples in [-1, 1], encoding to 16-bit
    little-endian PCM and decoding the bytes again gives back as many
    samples, each less than one quantization step away from the original;
    this holds for every scale that keeps the scaled samples in the signed
    16-bit range and every conversion that rounds to a neighbouring
    integer. *)
Theorem pcm_round_trip (scale : positive) (round : Q → Z) (samples : list Q) :
  (scale <= 32767)%positive →
  rounding round →
  Forall (λ x, (-1 <= x <= 1)%Q) samples →
  Forall2 (λ x y, (Qabs (y - x) < quantization_step scale)%Q)
    samples (decodePcm scale (encodePcm scale round samples)).
Proof.
  intros Hscale Hround Hsamples. rewrite decode_encoded.
  induction Hsamples as [|x xs Hx _ IH]; [constructor|].
  cbn [map]. constructor; [|exact IH].
  apply dequantize_close. by apply quantize_close.
Qed.

Lemma pcm_round_trip_witness :
  Forall2 (λ x y, (Qabs (y - x) < 1 # 32767)%Q)
    test_samples (decodePcm 32767 (encodePcm 32767 Qtrunc test_samples)).
Proof.
  apply (pcm_round_trip 32767 Qtrunc test_samples).
  - discriminate.
  - apply Qtrunc_rounding.
  - repeat constructor; discriminate.
Defined.

Example pcm_round_trip_values :
  encodePcm 32767 Qtrunc [1; -1; 1 # 3]%Q = [255; 127; 1; 128; 170; 42]%Z
  ∧ decodePcm 32767 [255; 127; 1; 128; 170; 42]%Z
    = [32767 # 32767; -32767 # 32767; 10922 # 32767]%Q.
Proof. by split. Qed.

End AudioCodecFacts.

(** ** Single-shot invokers and the credential *)

Section InvokerFacts.
Import Invokers.

(** With a credential, [generateImage] sends one request, for one image. *)
Lemma generateImage_requests_one (env : Env) (reply : Response GenerateImagesResponse)
    (prompt : string) (aspectRatio : ImageAspect) :
  truthy (API_KEY env) = true →
  filter (λ e, is_remote e = true) (run_trace (generateImage env reply prompt aspectRatio))
  = [Remote (GenerateImages "imagen-4.0-generate-001" prompt 1 "image/jpeg"
               (image_aspect_string aspectRatio))].
Proof.
  intros Hkey. unfold generateImage. rewrite Hkey. cbn [negb].
  destruct reply as [e|response]; [reflexivity|].
  unfold await_remote, emit, settle, mbind, run_bind, mret, run_ret, first_image_bytes.
  destruct (generatedImages response) as [[|g imgs]|]; try reflexivity.
  cbn [head]. destruct (image g); reflexivity.
Qed.

(** When the provider returns an image, the result is the data URI of its
    bytes. *)
Lemma generateImage_data_uri (env : Env) (prompt : string) (aspectRatio : ImageAspect)
    (bytes : string) (others : list GeneratedImage) :
  truthy (API_KEY env) = true →
  run_outcome (generateImage env
    (inr {| generatedImages :=
              Some ({| image := Some {| imageBytes := Some bytes |} |} :: others) |})
    prompt aspectRatio)
  = Return ("data:image/jpeg;base64," +:+ bytes).
Proof. intros Hkey. unfold generateImage. by rewrite Hkey. Qed.

(** C7.  When the provider returns zero images, [generateImage] raises no
    error of its own: after the one request for one image has been sent, the
    read of [generatedImages[0].image] on [undefined] raises the engine's
    [TypeError], and the outcome is no [Error] with a message chosen by the
    code. *)
Theorem generateImage_zero_images (env : Env) (response : GenerateImagesResponse)
    (prompt : string) (aspectRatio : ImageAspect) :
  truthy (API_KEY env) = true →
  generatedImages response = Some [] →
  generateImage env (inr response) prompt aspectRatio
  = ([Remote (GenerateImages "imagen-4.0-generate-001" prompt 1 "image/jpeg"
                (image_aspect_string aspectRatio))],
     Throw (TypeError "Cannot read properties of undefined (reading 'image')"))
  ∧ ∀ message,
      run_outcome (generateImage env (inr response) prompt aspectRatio)
      ≠ Throw (Error message).
Proof.
  intros Hkey Hnone.
  assert (Hrun : generateImage env (inr response) prompt aspectRatio
                 = ([Remote (GenerateImages "imagen-4.0-generate-001" prompt 1
                               "image/jpeg" (image_aspect_string aspectRatio))],
                    Throw (undefined_read "image"))).
  { unfold generateImage. rewrite Hkey. cbn [negb].
    unfold await_remote, emit, settle, mbind, run_bind, mret, run_ret, first_image_bytes.
    by rewrite Hnone. }
  split; [exact Hrun|].
  intros message. rewrite Hrun. discriminate.
Qed.

Lemma generateImage_zero_images_witness :
  generateImage with_key (inr {| generatedImages := Some [] |}) "a red kite" ia_1_1
  = ([Remote (GenerateImages "imagen-4.0-generate-001" "a red kite" 1 "image/jpeg" "1:1")],
     Throw (TypeError "Cannot read properties of undefined (reading 'image')")).
Proof.
  exact (proj1 (generateImage_zero_images with_key {| generatedImages := Some [] |}
                  "a red kite" ia_1_1 eq_refl eq_refl)).
Defined.

(** [generateAudio] has no check of its own: what happens without a
    credential is up to the constructor of the SDK client.  When the
    constructor throws, its error reaches the caller and nothing was
    requested. *)
Lemma generateAudio_constructor_throws (construct : Constructor) (env : Env)
    (reply : Response GenerateContentResponse) (text voiceName : string) (thrown : JsError) :
  construct (API_KEY env) = Some thrown →
  generateAudio construct env reply text voiceName = ([], Throw thrown).
Proof. intros Hc. unfold generateAudio. by rewrite Hc. Qed.






(** With a cached session the chat turn does not consult the credential:
    the request is sent and the reply returned. *)
Lemma chat_turn_cached_session_skips_guard (env : Env) (text message : string)
    (p : ChatPersonality) (s : ChatCache.Store) (c : ChatCache.Chat) :
  ChatCache.chats s !! p = Some c →
  ChatCache.sendMessageToAI env (inr text) message p s
  = (s, ([Remote (ChatSend (ChatCache.chat_ref c) message)], Return text)).
Proof.
  intros Hc. unfold ChatCache.sendMessageToAI.
  by rewrite (getChatInstance_hit env p s c Hc).
Qed.




End InvokerFacts.

(** * Further properties of the orchestration layer *)

(** ** Chat session cache: isolation and invariants *)

Section CacheRunFacts.
Import ChatCache CacheRuns.

Lemma getChatInstance_other (env : Env) (p q : ChatPersonality) (s : Store) :
  p ≠ q → chats (getChatInstance env p s).1 !! q = chats s !! q.
Proof.
  intros Hne. unfold getChatInstance. destruct (chats s !! p); [done|].
  destruct (negb (truthy (API_KEY env))); [done|].
  simpl. by apply lookup_insert_ne.
Qed.

Lemma sendMessageToAI_other (env : Env) (reply : Response string) (message : string)
    (p q : ChatPersonality) (s : Store) :
  p ≠ q → chats (sendMessageToAI env reply message p s).1 !! q = chats s !! q.
Proof.
  intros Hne.
  destruct (sendMessageToAI_cases env reply message p s)
    as [(s1 & c & text & Hget & _ & Heq) | [(s1 & c & e & Hget & _ & Heq) | [Hget Heq]]];
    rewrite Heq; cbn [fst].
  - rewrite <- (getChatInstance_other env p q s Hne). by rewrite Hget.
  - rewrite clearChatHistory_other by done.
    rewrite <- (getChatInstance_other env p q s Hne). by rewrite Hget.
  - by rewrite clearChatHistory_other.
Qed.

(** What is cached under the personality of an operation after it ran is
    either what was there before or a session constructed by this very
    operation, or nothing. *)
Lemma exec_lookup_target (o : Op) (s : Store) (c : Chat) :
  chats (exec o s) !! target o = Some c →
  chats s !! target o = Some c
  ∨ (chats s !! target o = None
     ∧ chat_ref c = allocated s
     ∧ chat_model c = model_of (target o)
     ∧ chat_config c = config_of (target o)).
Proof.
  assert (Hget : ∀ env p, chats (getChatInstance env p s).1 !! p = Some c →
            chats s !! p = Some c
            ∨ (chats s !! p = None ∧ chat_ref c = allocated s
               ∧ chat_model c = model_of p ∧ chat_config c = config_of p)).
  { intros env p. unfold getChatInstance.
    destruct (chats s !! p) as [c0|] eqn:Hp; [cbn [fst]; rewrite Hp; by left|].
    destruct (negb (truthy (API_KEY env))); cbn [fst]; [by rewrite Hp|].
    simpl. rewrite lookup_insert_eq. intros [= <-]. by right. }
  destruct o as [env p | p | env reply message p]; cbn [exec target].
  - apply Hget.
  - by rewrite clearChatHistory_lookup.
  - destruct (sendMessageToAI_cases env reply message p s)
      as [(s1 & c1 & text & Hg & _ & Heq) | [(s1 & c1 & e & Hg & _ & Heq) | [Hg Heq]]];
      rewrite Heq; cbn [fst]; try by rewrite clearChatHistory_lookup.
    intros Hc. apply (Hget env p). by rewrite Hg.
Qed.

Lemma exec_other (o : Op) (q : ChatPersonality) (s : Store) :
  target o ≠ q → chats (exec o s) !! q = chats s !! q.
Proof.
  intros Hne. destruct o as [env p | p | env reply message p]; cbn [exec target] in *.
  - by apply getChatInstance_other.
  - by apply clearChatHistory_other.
  - by apply sendMessageToAI_other.
Qed.

Lemma exec_wf (o : Op) (s : Store) : wf s → wf (exec o s).
Proof.
  intros Hwf. destruct o as [env p | p | env reply message p]; cbn [exec].
  - destruct (getChatInstance env p s) as [s1 r] eqn:Hg. by eapply getChatInstance_wf.
  - by apply clearChatHistory_wf.
  - destruct (sendMessageToAI env reply message p s) as [s1 r] eqn:Hs.
    by eapply sendMessageToAI_wf.
Qed.


Lemma exec_configured (o : Op) (s : Store) : configured s → configured (exec o s).
Proof.
  intros Hc q c Hq. destruct (decide (target o = q)) as [<-|Hne].
  - destruct (exec_lookup_target o s c Hq) as [Hold | (_ & _ & Hm & Hcfg)]; [|done].
    by apply Hc.
  - rewrite exec_other in Hq by done. by apply Hc.
Qed.

Lemma exec_unshared (o : Op) (s : Store) : wf s → unshared s → unshared (exec o s).
Proof.
  intros Hwf Hu p q c d Hp Hq Href.
  destruct (decide (p = q)) as [|Hpq]; [done|]. exfalso.
  destruct (decide (target o = p)) as [Hp'|Hp'];
    destruct (decide (target o = q)) as [Hq'|Hq']; try congruence.
  - subst p. rewrite exec_other in Hq by done.
    destruct (exec_lookup_target o s c Hp) as [Hold | (_ & Hnew & _)].
    + by apply Hpq, (Hu _ _ c d).
    + apply Hwf in Hq. lia.
  - subst q. rewrite exec_other in Hp by done.
    destruct (exec_lookup_target o s d Hq) as [Hold | (_ & Hnew & _)].
    + by apply Hpq, (Hu _ _ c d).
    + apply Hwf in Hp. lia.
  - rewrite exec_other in Hp, Hq by done. by apply Hpq, (Hu _ _ c d).
Qed.

(** X1.  An operation on one personality never changes what is cached for
    another: getting, clearing and sending (whether the turn succeeds or
    fails) leave every other personality's session in place. *)
Theorem cache_operations_isolated (o : Op) (q : ChatPersonality) (s : Store) :
  target o ≠ q → chats (exec o s) !! q = chats s !! q.
Proof. apply exec_other. Qed.

Lemma cache_operations_isolated_witness :
  chats (exec (Send with_key (inl (ProviderError "503")) "hello" fast)
           (exec (Get with_key creative) init)) !! creative
  = chats (exec (Get with_key creative) init) !! creative.
Proof.
  apply (cache_operations_isolated
           (Send with_key (inl (ProviderError "503")) "hello" fast) creative).
  discriminate.
Defined.

(** X2.  In every state of the cache that any sequence of operations reaches
    from the empty cache: each cached session carries the model of its
    personality, the fixed system instruction, and a thinking budget (of
    32768) exactly when the personality is [creative]; its reference is below
    the allocation counter; and no session is cached under two personalities. *)
Theorem cache_invariant (ops : list Op) :
  let s := exec_all ops init in
  wf s
  ∧ unshared s
  ∧ ∀ p c, chats s !! p = Some c →
      chat_model c = model_of p
      ∧ systemInstruction (chat_config c) = base_instruction
      ∧ (thinkingConfig (chat_config c) = Some 32768%Z ↔ p = creative)
      ∧ (thinkingConfig (chat_config c) = None ↔ p ≠ creative).
Proof.
  cbv zeta.
  assert (Hinv : ∀ s, wf s → unshared s → configured s →
            wf (exec_all ops s) ∧ unshared (exec_all ops s) ∧ configured (exec_all ops s)).
  { induction ops as [|o ops IH]; intros s Hwf Hu Hc; [done|].
    cbn [exec_all foldl]. apply IH.
    - by apply exec_wf.
    - by apply exec_unshared.
    - by apply exec_configured. }
  destruct (Hinv init) as (Hwf & Hu & Hc).
  - apply wf_init.
  - intros p q c d Hp. unfold init in Hp. cbn [chats] in Hp. by rewrite lookup_empty in Hp.
  - intros p c Hp. unfold init in Hp. cbn [chats] in Hp. by rewrite lookup_empty in Hp.
  - split; [exact Hwf|]. split; [exact Hu|].
    intros p c Hp. destruct (Hc p c Hp) as [Hm Hcfg].
    split; [exact Hm|]. rewrite Hcfg. by destruct p.
Qed.


Lemma exec_all_wf (ops : list Op) (s : Store) : wf s → wf (exec_all ops s).
Proof.
  revert s. induction ops as [|o ops IH]; intros s Hwf; [done|].
  cbn [exec_all foldl]. apply IH. by apply exec_wf.
Qed.



(** [sendMessageToAI] is the turn during whose wait nothing happens. *)
Lemma turn_nothing_between (env : Env) (reply : Response string) (message : string)
    (p : ChatPersonality) (s : Store) :
  ChatTurn.turn env reply message p [] s = sendMessageToAI env reply message p s.
Proof.
  unfold ChatTurn.turn, ChatTurn.start, ChatTurn.resume, sendMessageToAI.
  destruct (getChatInstance env p s) as [s1 [c|e|]]; [|reflexivity|reflexivity].
  destruct reply as [cause|text]; reflexivity.
Qed.




End CacheRunFacts.

(** ** Single-shot invokers: reading files, model tiers, results *)

Section InvokerMoreFacts.
Import Invokers.

Lemma after_comma_app (header rest : string) :
  comma_free header → after_comma (header +:+ "," +:+ rest) = Some rest.
Proof.
  unfold comma_free. induction header as [|c header IH]; intros Hfree; [reflexivity|].
  simpl in *. destruct (Ascii.eqb c ","); [discriminate|]. by apply IH.
Qed.

Lemma until_comma_free (s : string) : comma_free s → until_comma s = s.
Proof.
  unfold comma_free. induction s as [|c s IH]; intros Hfree; [reflexivity|].
  simpl in *. destruct (Ascii.eqb c ","); [discriminate|]. by rewrite IH.
Qed.

Lemma split_comma_1_none (s : string) : comma_free s → split_comma_1 s = None.
Proof. unfold comma_free, split_comma_1. by intros ->. Qed.

(** X4.  For a file that reads as the data URL [header,payload] (neither part
    containing a comma) [fileToGenerativePart] resolves, after the one read,
    to the payload alone together with the file's MIME type; when what was
    read has no comma at all, the part carries no data ([undefined]) and is
    still resolved. *)
Theorem fileToGenerativePart_data_url (file : File) (header payload : string) :
  comma_free header →
  comma_free payload →
  (file_read file = ReadString (header +:+ "," +:+ payload) →
     fileToGenerativePart file
     = ([ReadAsDataURL file],
        Return {| data := Some payload; mimeType := file_type file |}))
  ∧ (file_read file = ReadString header →
       fileToGenerativePart file
       = ([ReadAsDataURL file],
          Return {| data := None; mimeType := file_type file |})).
Proof.
  intros Hh Hp. unfold fileToGenerativePart. split; intros ->.
  - unfold split_comma_1. rewrite after_comma_app by done.
    cbn [fmap option_fmap option_map]. by rewrite until_comma_free.
  - by rewrite split_comma_1_none.
Qed.

Lemma fileToGenerativePart_data_url_witness :
  fileToGenerativePart {| file_type := "image/png";
                          file_read := ReadString "data:image/png;base64,iVBORw0KGgo=" |}
  = ([ReadAsDataURL {| file_type := "image/png";
                       file_read := ReadString "data:image/png;base64,iVBORw0KGgo=" |}],
     Return {| data := Some "iVBORw0KGgo="; mimeType := "image/png" |}).
Proof.
  apply (fileToGenerativePart_data_url
           {| file_type := "image/png";
              file_read := ReadString "data:image/png;base64,iVBORw0KGgo=" |}
           "data:image/png;base64" "iVBORw0KGgo="); reflexivity.
Defined.

(** What a failed read rejects with. *)
Lemma fileToGenerativePart_unreadable (file : File) :
  (∀ url, file_read file ≠ ReadString url) →
  ∃ e, fileToGenerativePart file = ([ReadAsDataURL file], Throw e)
       ∧ (file_read file = ReadFailed e
          ∨ (file_read file = ReadOther ∧ e = Error "Failed to read file as base64.")).
Proof.
  intros Hbad. unfold fileToGenerativePart.
  destruct (file_read file) as [url| |e] eqn:Hr.
  - by destruct (Hbad url).
  - eexists. split; [reflexivity|]. by right.
  - eexists. split; [reflexivity|]. by left.
Qed.

(** X5.  A file that cannot be read stops [analyzeMedia] and [generateVideo]
    before anything is sent: the read is the only effect, no request leaves
    the process, and the outcome is the reader's own error (or [Failed to read
    file as base64.] when the result is no string). *)
Theorem unreadable_file_stops_before_network
    (env : Env) (file : File) (reply : Response string)
    (w : VideoGen.World) (prompt : string) (aspect : VideoGen.VideoAspect) :
  truthy (API_KEY env) = true →
  (∀ url, file_read file ≠ ReadString url) →
  ∃ e,
    analyzeMedia env reply prompt file = ([ReadAsDataURL file], Throw e)
    ∧ VideoGen.generateVideo env w prompt
        {| VideoGen.aspectRatio := aspect; VideoGen.imageFile := Some file |}
      = ([ReadAsDataURL file], Throw e)
    ∧ no_remote [ReadAsDataURL file]
    ∧ (file_read file = ReadFailed e
       ∨ (file_read file = ReadOther ∧ e = Error "Failed to read file as base64.")).
Proof.
  intros Hkey Hbad.
  destruct (fileToGenerativePart_unreadable file Hbad) as (e & Hread & Hwhy).
  exists e. unfold analyzeMedia, VideoGen.generateVideo. rewrite Hkey. cbn [negb].
  cbn [VideoGen.imageFile]. rewrite Hread.
  split; [reflexivity|]. split; [reflexivity|]. split; [reflexivity|exact Hwhy].
Qed.

Lemma unreadable_file_stops_before_network_witness :
  ∃ e,
    analyzeMedia with_key (inr "a cat") "what is this?"
      {| file_type := "image/png"; file_read := ReadFailed (ProviderError "NotReadableError") |}
    = ([ReadAsDataURL {| file_type := "image/png";
                         file_read := ReadFailed (ProviderError "NotReadableError") |}],
       Throw e)
    ∧ e = ProviderError "NotReadableError".
Proof.
  destruct (unreadable_file_stops_before_network with_key
              {| file_type := "image/png";
                 file_read := ReadFailed (ProviderError "NotReadableError") |}
              (inr "a cat") VideoGen.world_two_polls "what is this?" VideoGen.va_16_9
              eq_refl) as (e & Ha & _ & _ & Hwhy).
  - discriminate.
  - exists e. split; [exact Ha|]. destruct Hwhy as [[= <-] | [[=] _]]. reflexivity.
Defined.

(** X6.  With a credential and a readable file, [analyzeMedia] reads the
    file, then sends exactly one request: to [gemini-2.5-pro] when the file's
    type starts with [video/], to [gemini-2.5-flash] otherwise.  What the
    provider answers is the outcome, unchanged: its text is returned as it is
    and its rejection is rethrown as it is. *)
Theorem analyzeMedia_tier_and_propagation
    (env : Env) (reply : Response string) (prompt : string) (file : File) (url : string) :
  truthy (API_KEY env) = true →
  file_read file = ReadString url →
  ∃ model,
    analyzeMedia env reply prompt file
    = ([ReadAsDataURL file;
        Remote (GenerateContent model prompt
                  {| data := split_comma_1 url; mimeType := file_type file |})],
       match reply with inl e => Throw e | inr text => Return text end)
    ∧ (String.prefix "video/" (file_type file) = true → model = "gemini-2.5-pro")
    ∧ (String.prefix "video/" (file_type file) = false → model = "gemini-2.5-flash").
Proof.
  intros Hkey Hread. unfold analyzeMedia, fileToGenerativePart.
  rewrite Hkey, Hread. cbn [negb].
  eexists. split.
  - unfold await_remote, emit, settle, mbind, run_bind, mret, run_ret.
    by destruct reply.
  - split; by intros ->.
Qed.

Lemma analyzeMedia_tier_and_propagation_witness :
  ∃ model,
    analyzeMedia with_key (inl (ProviderError "429")) "describe the clip"
      {| file_type := "video/mp4"; file_read := ReadString "data:video/mp4;base64,AAAA" |}
    = ([ReadAsDataURL {| file_type := "video/mp4";
                         file_read := ReadString "data:video/mp4;base64,AAAA" |};
        Remote (GenerateContent model "describe the clip"
                  {| data := Some "AAAA"; mimeType := "video/mp4" |})],
       Throw (ProviderError "429"))
    ∧ model = "gemini-2.5-pro".
Proof.
  destruct (analyzeMedia_tier_and_propagation with_key (inl (ProviderError "429"))
              "describe the clip"
              {| file_type := "video/mp4";
                 file_read := ReadString "data:video/mp4;base64,AAAA" |}
              "data:video/mp4;base64,AAAA" eq_refl eq_refl) as (model & Hrun & Hpro & _).
  exists model. split; [exact Hrun | by apply Hpro].
Defined.

(** X7.  [generateImage] returns exactly when there is a credential, the
    provider has answered, and the first generated image carries an [image]
    object; what it returns is then [data:image/jpeg;base64,] followed by the
    image bytes, and one request was sent.  When that object has no bytes the
    call does not fail: it returns [data:image/jpeg;base64,undefined]. *)
Theorem generateImage_result_shape
    (env : Env) (reply : Response GenerateImagesResponse)
    (prompt : string) (aspectRatio : ImageAspect) :
  (∀ result,
     run_outcome (generateImage env reply prompt aspectRatio) = Return result
     ↔ truthy (API_KEY env) = true
       ∧ ∃ response img others,
           reply = inr response
           ∧ generatedImages response = Some ({| image := Some img |} :: others)
           ∧ result = "data:image/jpeg;base64," +:+ render (imageBytes img))
  ∧ (∀ result,
       run_outcome (generateImage env reply prompt aspectRatio) = Return result →
       count_remote (run_trace (generateImage env reply prompt aspectRatio)) = 1%nat)
  ∧ (∀ others,
       truthy (API_KEY env) = true →
       generateImage env
         (inr {| generatedImages := Some ({| image := Some {| imageBytes := None |} |}
                                           :: others) |})
         prompt aspectRatio
       = ([Remote (GenerateImages "imagen-4.0-generate-001" prompt 1 "image/jpeg"
                     (image_aspect_string aspectRatio))],
          Return "data:image/jpeg;base64,undefined")).
Proof.
  split; [|split].
  - intros result. split.
    + unfold generateImage.
      destruct (truthy (API_KEY env)); cbn [negb]; [|discriminate].
      destruct reply as [e|response]; [discriminate|].
      unfold await_remote, emit, settle, mbind, run_bind, mret, run_ret, first_image_bytes.
      destruct response as [[[|[[img|]] others]|]]; cbn; try discriminate.
      intros [= <-]. split; [reflexivity|].
      by exists {| generatedImages := Some ({| image := Some img |} :: others) |}, img, others.
    + intros (Hkey & response & img & others & -> & Himgs & ->).
      unfold generateImage. rewrite Hkey. cbn [negb].
      unfold await_remote, emit, settle, mbind, run_bind, mret, run_ret, first_image_bytes.
      cbn. by rewrite Himgs.
  - intros result. unfold generateImage.
    destruct (truthy (API_KEY env)); cbn [negb]; [|discriminate].
    destruct reply as [e|response]; [discriminate|].
    unfold await_remote, emit, settle, mbind, run_bind, mret, run_ret, first_image_bytes.
    destruct response as [[[|[[img|]] others]|]]; cbn; try discriminate.
    reflexivity.
  - intros others Hkey. unfold generateImage. by rewrite Hkey.
Qed.

Lemma generateImage_result_shape_witness :
  generateImage with_key
    (inr {| generatedImages := Some [{| image := Some {| imageBytes := None |} |}] |})
    "a red kite" ia_1_1
  = ([Remote (GenerateImages "imagen-4.0-generate-001" "a red kite" 1 "image/jpeg" "1:1")],
     Return "data:image/jpeg;base64,undefined").
Proof.
  exact (proj2 (proj2 (generateImage_result_shape with_key
                         (inr {| generatedImages := Some [] |}) "a red kite" ia_1_1))
           [] eq_refl).
Defined.

End InvokerMoreFacts.

(** ** Audio synthesis *)

Section AudioFacts.
Import Invokers.

Lemma api_voice_cases (voiceName : string) :
  (voiceName = "Prabhas" ∧ api_voice voiceName = "Fenrir")
  ∨ (voiceName = "Human" ∧ api_voice voiceName = "Zephyr")
  ∨ (voiceName ≠ "Prabhas" ∧ voiceName ≠ "Human" ∧ api_voice voiceName = voiceName).
Proof.
  unfold api_voice.
  destruct (String.eqb_spec voiceName "Prabhas") as [->|Hp]; [by left|].
  destruct (String.eqb_spec voiceName "Human") as [->|Hh]; [right; by left|].
  right; right. done.
Qed.

(** The one request of [generateAudio], when the client is constructed. *)
Lemma generateAudio_trace (construct : Constructor) (env : Env)
    (reply : Response GenerateContentResponse) (text voiceName : string) :
  construct (API_KEY env) = None →
  filter (λ e, is_remote e = true)
    (run_trace (generateAudio construct env reply text voiceName))
  = [Remote (GenerateSpeech "gemini-2.5-flash-preview-tts" text (api_voice voiceName))].
Proof.
  intros Hc. unfold generateAudio. rewrite Hc.
  unfold await_remote, emit, settle, mbind, run_bind, mret, run_ret.
  destruct reply as [e|response]; [reflexivity|].
  by destruct (negb (truthy (first_audio_data response))).
Qed.

(** X8.  When the constructor of the SDK client throws, [generateAudio]
    sends nothing and the constructor's error reaches the caller unchanged.
    When the client is constructed, exactly one request is sent, for the given
    text, whose voice is [Fenrir] for [Prabhas], [Zephyr] for [Human] and the
    given name for any other voice.  So in no run do the display names
    [Prabhas] and [Human] reach the provider, and no run sends more than one
    request. *)
Theorem generateAudio_voice_alias
    (construct : Constructor) (env : Env) (reply : Response GenerateContentResponse)
    (text voiceName : string) :
  (∀ thrown, construct (API_KEY env) = Some thrown →
     generateAudio construct env reply text voiceName = ([], Throw thrown))
  ∧ (construct (API_KEY env) = None →
       ∃ voice,
         filter (λ e, is_remote e = true)
           (run_trace (generateAudio construct env reply text voiceName))
         = [Remote (GenerateSpeech "gemini-2.5-flash-preview-tts" text voice)]
         ∧ (voiceName = "Prabhas" → voice = "Fenrir")
         ∧ (voiceName = "Human" → voice = "Zephyr")
         ∧ (voiceName ≠ "Prabhas" → voiceName ≠ "Human" → voice = voiceName)
         ∧ api_voice voice = voice)
  ∧ (∀ model sent voice,
       Remote (GenerateSpeech model sent voice)
       ∈ run_trace (generateAudio construct env reply text voiceName) →
       sent = text ∧ voice ≠ "Prabhas" ∧ voice ≠ "Human")
  ∧ (count_remote (run_trace (generateAudio construct env reply text voiceName)) <= 1)%nat.
Proof.
  assert (Hvoice : api_voice voiceName ≠ "Prabhas" ∧ api_voice voiceName ≠ "Human"
                   ∧ api_voice (api_voice voiceName) = api_voice voiceName).
  { destruct (api_voice_cases voiceName) as [[-> ->] | [[-> ->] | (Hp & Hh & ->)]];
      [done|done|].
    split; [done|]. split; [done|]. unfold api_voice.
    destruct (String.eqb_spec voiceName "Prabhas"); [done|].
    by destruct (String.eqb_spec voiceName "Human"). }
  destruct Hvoice as (HnP & HnH & Hidem).
  destruct (construct (API_KEY env)) as [thrown|] eqn:Hc.
  - rewrite (generateAudio_constructor_throws construct env reply text voiceName thrown Hc).
    split; [by intros ? [= <-]|]. split; [discriminate|].
    split; [|unfold count_remote; simpl; lia].
    intros model sent voice Hin. by apply elem_of_nil in Hin.
  - pose proof (generateAudio_trace construct env reply text voiceName Hc) as Htrace.
    split; [discriminate|]. split; [|split].
    + intros _. exists (api_voice voiceName). split; [exact Htrace|].
      destruct (api_voice_cases voiceName) as [[-> ->] | [[-> ->] | (Hp & Hh & Heq)]];
        repeat split; try done.
    + intros model sent voice Hin.
      assert (Hin' : Remote (GenerateSpeech model sent voice)
                     ∈ filter (λ e, is_remote e = true)
                         (run_trace (generateAudio construct env reply text voiceName))).
      { apply list_elem_of_filter. by split. }
      rewrite Htrace in Hin'. apply list_elem_of_singleton in Hin'.
      injection Hin' as _ -> ->. done.
    + unfold count_remote. rewrite Htrace. simpl. lia.
Qed.

(** X9.  [generateAudio] never returns an empty string: whenever it returns,
    the client was constructed and the result is the non-empty audio data of
    the first part of the first candidate.  With the client constructed,
    whenever the provider's answer has no such data (a link of the chain is
    missing, or the data is the empty string) it throws
    [Failed to generate audio data.], the one request having been sent, and
    otherwise it returns the data. *)
Theorem generateAudio_result
    (construct : Constructor) (env : Env) (response : GenerateContentResponse)
    (text voiceName : string) :
  (∀ result,
     run_outcome (generateAudio construct env (inr response) text voiceName)
     = Return result →
     result ≠ "" ∧ first_audio_data response = Some result
     ∧ construct (API_KEY env) = None)
  ∧ (construct (API_KEY env) = None →
       truthy (first_audio_data response) = false →
       generateAudio construct env (inr response) text voiceName
       = ([Remote (GenerateSpeech "gemini-2.5-flash-preview-tts" text (api_voice voiceName))],
          Throw (Error "Failed to generate audio data.")))
  ∧ (construct (API_KEY env) = None →
       truthy (first_audio_data response) = true →
       run_outcome (generateAudio construct env (inr response) text voiceName)
       = Return (render (first_audio_data response))).
Proof.
  unfold generateAudio.
  destruct (construct (API_KEY env)) as [thrown|].
  { split; [discriminate|]. split; discriminate. }
  unfold await_remote, emit, settle, mbind, run_bind, mret, run_ret.
  destruct (truthy (first_audio_data response)) eqn:Hdata; cbn [negb].
  - split; [|split; [discriminate|done]].
    intros result [= <-]. unfold truthy in Hdata.
    destruct (first_audio_data response) as [d|]; [|discriminate].
    cbn [render]. split; [|done].
    intros ->. discriminate.
  - split; [discriminate|]. split; [done|discriminate].
Qed.

Lemma generateAudio_result_witness :
  generateAudio accepts_any_key with_key (inr {| candidates := Some [] |})
    "Hello world!" "Kore"
  = ([Remote (GenerateSpeech "gemini-2.5-flash-preview-tts" "Hello world!" "Kore")],
     Throw (Error "Failed to generate audio data.")).
Proof.
  exact (proj1 (proj2 (generateAudio_result accepts_any_key with_key
                         {| candidates := Some [] |} "Hello world!" "Kore"))
           eq_refl eq_refl).
Defined.

End AudioFacts.

(** ** Video generation: every run *)

Section VideoRunFacts.
Import VideoGen.

Lemma count_sleeps_app (t1 t2 : Trace) :
  count_sleeps (t1 ++ t2) = (count_sleeps t1 + count_sleeps t2)%nat.
Proof. unfold count_sleeps. by rewrite filter_app, length_app. Qed.

(** In the polling loop every query follows a delay, and nothing else is
    delayed. *)
Lemma poll_sleeps (answers : list (Response Operation)) :
  ∀ operation, count_sleeps (poll operation answers).1
               = count_polls (poll operation answers).1.
Proof.
  induction answers as [|answer rest IH]; intros operation;
    destruct (truthy_flag (done operation)) eqn:Hd.
  - by rewrite poll_done.
  - by rewrite poll_unanswered.
  - by rewrite poll_done.
  - destruct answer as [e|next].
    + by rewrite poll_rejected.
    + rewrite poll_answered by done. cbn [fst].
      rewrite count_sleeps_app, count_polls_app, IH. done.
Qed.

(** The loop ends with a finished operation, with the rejection of a query,
    or waiting. *)
Lemma poll_returns_done (answers : list (Response Operation)) :
  ∀ operation final, (poll operation answers).2 = Return final →
                     truthy_flag (done final) = true.
Proof.
  induction answers as [|answer rest IH]; intros operation final;
    destruct (truthy_flag (done operation)) eqn:Hd.
  - rewrite poll_done by done. by intros [= <-].
  - by rewrite poll_unanswered.
  - rewrite poll_done by done. by intros [= <-].
  - destruct answer as [e|next].
    + by rewrite poll_rejected.
    + rewrite poll_answered by done. cbn [snd]. apply IH.
Qed.

(** A query that is rejected ends the loop with that rejection. *)
Lemma poll_until_rejected (pending : list Operation) :
  ∀ (first : Operation) (e : JsError) (later : list (Response Operation)),
    Forall (λ op, truthy_flag (done op) = false) (first :: pending) →
    poll first ((inr <$> pending) ++ inl e :: later)
    = (flat_map poll_round (first :: pending)
       ++ [Console ErrorLevel "Error polling video operation:"], Throw e).
Proof.
  induction pending as [|next pending IH]; intros first e later Hnot.
  - apply Forall_cons in Hnot as [Hfirst _].
    simpl fmap. simpl app. by rewrite poll_rejected.
  - apply Forall_cons in Hnot as [Hfirst Hrest].
    change ((inr <$> next :: pending) ++ inl e :: later)
      with (inr next :: ((inr <$> pending) ++ inl e :: later)).
    rewrite poll_answered by done.
    rewrite (IH next e later Hrest). reflexivity.
Qed.

(** What precedes the polling loop, and how a run goes on from there. *)
Lemma generateVideo_decompose (env : Env) (w : World) (prompt : string)
    (config : VideoConfig) :
  ∃ pre,
    yields pre = [] ∧ count_fetches pre = 0%nat
    ∧ count_sleeps pre = 0%nat ∧ count_polls pre = 0%nat
    ∧ ((∃ e, generateVideo env w prompt config = (pre, Throw e))
       ∨ (∃ first,
            submitted w = inr first
            ∧ generateVideo env w prompt config
              = match (poll first (polls w)).2 with
                | Return final =>
                    ((pre ++ (poll first (polls w)).1) ++ (deliver env w final).1,
                     (deliver env w final).2)
                | Throw e => (pre ++ (poll first (polls w)).1, Throw e)
                | Pending => (pre ++ (poll first (polls w)).1, Pending)
                end)).
Proof.
  unfold generateVideo.
  destruct (negb (truthy (API_KEY env))).
  { exists []. repeat (split; [reflexivity|]). left. by eexists. }
  assert (Hrest : ∀ img (t0 : Trace),
            yields t0 = [] → count_fetches t0 = 0%nat →
            count_sleeps t0 = 0%nat → count_polls t0 = 0%nat →
            ∃ pre,
              yields pre = [] ∧ count_fetches pre = 0%nat
              ∧ count_sleeps pre = 0%nat ∧ count_polls pre = 0%nat
              ∧ ((∃ e, ((t0, Return img) ≫= λ payload_image,
                          await_remote (GenerateVideos (payload_of prompt config payload_image))
                            (submitted w) ≫= λ operation,
                          poll operation (polls w) ≫= λ operation0,
                          deliver env w operation0) = (pre, Throw e))
                 ∨ (∃ first, submitted w = inr first
                      ∧ ((t0, Return img) ≫= λ payload_image,
                          await_remote (GenerateVideos (payload_of prompt config payload_image))
                            (submitted w) ≫= λ operation,
                          poll operation (polls w) ≫= λ operation0,
                          deliver env w operation0)
                        = match (poll first (polls w)).2 with
                          | Return final =>
                              ((pre ++ (poll first (polls w)).1) ++ (deliver env w final).1,
                               (deliver env w final).2)
                          | Throw e => (pre ++ (poll first (polls w)).1, Throw e)
                          | Pending => (pre ++ (poll first (polls w)).1, Pending)
                          end))).
  { intros img t0 Hy Hf Hs Hp.
    exists (t0 ++ [Remote (GenerateVideos (payload_of prompt config img))]).
    rewrite yields_app, count_fetches_app, count_sleeps_app, count_polls_app, Hy, Hf, Hs, Hp.
    repeat (split; [reflexivity|]).
    unfold await_remote, emit, settle, mbind, run_bind, mret, run_ret.
    destruct (submitted w) as [e|first]; [left; by eexists|].
    right. exists first. split; [reflexivity|].
    destruct (poll first (polls w)) as [tp [final|e|]]; cbn [fst snd].
    - destruct (deliver env w final). cbn [fst snd].
      by rewrite app_nil_r, <- !app_assoc.
    - by rewrite app_nil_r, <- !app_assoc.
    - by rewrite app_nil_r, <- !app_assoc. }
  destruct (imageFile config) as [f|].
  - unfold Invokers.fileToGenerativePart.
    destruct (file_read f) as [url| |e].
    + apply (Hrest _ [ReadAsDataURL f]); reflexivity.
    + exists [ReadAsDataURL f]. repeat (split; [reflexivity|]). left. by eexists.
    + exists [ReadAsDataURL f]. repeat (split; [reflexivity|]). left. by eexists.
  - apply (Hrest None []); reflexivity.
Qed.

(** The delivery phase on a finished operation, in all its cases. *)
Lemma deliver_shape (env : Env) (w : World) (operation : Operation) :
  count_sleeps (deliver env w operation).1 = 0%nat
  ∧ count_polls (deliver env w operation).1 = 0%nat
  ∧ ((yields (deliver env w operation).1 = []
      ∧ count_fetches (deliver env w operation).1 = 0%nat
      ∧ ∃ e, (deliver env w operation).2 = Throw e)
     ∨ (yields (deliver env w operation).1 = [fetching]
        ∧ count_fetches (deliver env w operation).1 = 1%nat
        ∧ ∃ e, (deliver env w operation).2 = Throw e)
     ∨ (∃ url, yields (deliver env w operation).1 = [fetching; completed url]
               ∧ count_fetches (deliver env w operation).1 = 1%nat
               ∧ (deliver env w operation).2 = Return tt)).
Proof.
  unfold deliver. destruct (error operation) as [err|].
  { repeat (split; [reflexivity|]). left. repeat (split; [reflexivity|]). by eexists. }
  destruct (negb (truthy (download_link operation))).
  { repeat (split; [reflexivity|]). left. repeat (split; [reflexivity|]). by eexists. }
  unfold await_remote, emit, settle, mbind, run_bind, mret, run_ret.
  destruct (fetched w) as [e|resp].
  { repeat (split; [reflexivity|]). right; left. repeat (split; [reflexivity|]). by eexists. }
  destruct (ok resp); cbn [negb].
  - destruct (blob resp) as [e|bytes].
    + repeat (split; [reflexivity|]). right; left. repeat (split; [reflexivity|]). by eexists.
    + repeat (split; [reflexivity|]). right; right. eexists. by repeat split.
  - repeat (split; [reflexivity|]). right; left. repeat (split; [reflexivity|]). by eexists.
Qed.


Lemma generateVideo_poll_stops (env : Env) (w : World) (prompt : string)
    (config : VideoConfig) (first : Operation) (tp : Trace) (e : JsError) :
  truthy (API_KEY env) = true →
  image_readable config = true →
  submitted w = inr first →
  poll first (polls w) = (tp, Throw e) →
  ∃ pre, generateVideo env w prompt config = (pre ++ tp, Throw e)
         ∧ yields pre = [] ∧ count_polls pre = 0%nat ∧ count_fetches pre = 0%nat.
Proof.
  intros Hkey Himg Hsub Hpoll. unfold generateVideo, image_readable in *.
  rewrite Hkey. cbn [negb].
  destruct (imageFile config) as [f|].
  - unfold Invokers.fileToGenerativePart.
    destruct (file_read f) as [url| |]; try discriminate.
    eexists [ReadAsDataURL f; Remote (GenerateVideos _)].
    rewrite Hsub. unfold await_remote, emit, settle, mbind, run_bind, mret, run_ret.
    cbn [app]. by rewrite Hpoll.
  - eexists [Remote (GenerateVideos _)].
    rewrite Hsub. unfold await_remote, emit, settle, mbind, run_bind, mret, run_ret.
    cbn [app]. by rewrite Hpoll.
Qed.

(** X10.  A status query that is rejected is not retried: when the
    operations seen so far are not done and the next query is rejected, the
    generator throws that very rejection after logging it, having issued one
    query per operation seen and none after the rejected one, and having
    yielded nothing and fetched nothing. *)
Theorem generateVideo_poll_failure_not_retried
    (env : Env) (w : World) (prompt : string) (config : VideoConfig)
    (first : Operation) (pending : list Operation) (e : JsError)
    (later : list (Response Operation)) :
  truthy (API_KEY env) = true →
  image_readable config = true →
  submitted w = inr first →
  polls w = (inr <$> pending) ++ inl e :: later →
  Forall (λ op, truthy_flag (done op) = false) (first :: pending) →
  run_outcome (generateVideo env w prompt config) = Throw e
  ∧ count_polls (run_trace (generateVideo env w prompt config)) = S (length pending)
  ∧ yields (run_trace (generateVideo env w prompt config)) = []
  ∧ count_fetches (run_trace (generateVideo env w prompt config)) = 0%nat
  ∧ last (run_trace (generateVideo env w prompt config))
    = Some (Console ErrorLevel "Error polling video operation:").
Proof.
  intros Hkey Himg Hsub Hpolls Hnot.
  pose proof (poll_until_rejected pending first e later Hnot) as Hpoll.
  rewrite <- Hpolls in Hpoll.
  destruct (generateVideo_poll_stops env w prompt config first _ e Hkey Himg Hsub Hpoll)
    as (pre & Hrun & Hy & Hp & Hf).
  destruct (poll_rounds_trace (first :: pending)) as (Hry & Hrp & Hrf).
  rewrite Hrun. unfold run_outcome, run_trace. cbn [fst snd].
  split; [reflexivity|].
  rewrite !count_polls_app, !yields_app, !count_fetches_app, Hy, Hp, Hf, Hry, Hrp, Hrf.
  change (count_polls [Console ErrorLevel "Error polling video operation:"]) with 0%nat.
  split; [cbn [length]; lia|]. split; [reflexivity|]. split; [reflexivity|].
  by rewrite !app_assoc, last_snoc.
Qed.

Lemma generateVideo_poll_failure_not_retried_witness :
  run_outcome (generateVideo with_key
                 {| submitted := inr op_running;
                    polls := [inr op_running; inl (ProviderError "503"); inr op_ready];
                    fetched := inr asset_ok;
                    createObjectURL := object_url |} "a cat" text_only)
  = Throw (ProviderError "503").
Proof.
  exact (proj1 (generateVideo_poll_failure_not_retried with_key
                  {| submitted := inr op_running;
                     polls := [inr op_running; inl (ProviderError "503"); inr op_ready];
                     fetched := inr asset_ok;
                     createObjectURL := object_url |} "a cat" text_only
                  op_running [op_running] (ProviderError "503") [inr op_ready]
                  eq_refl eq_refl eq_refl eq_refl ltac:(repeat constructor))).
Defined.

(** The events of a run, its fetches and its outcome, in all cases. *)
Lemma generateVideo_event_cases
    (env : Env) (w : World) (prompt : string) (config : VideoConfig) :
  (yields (run_trace (generateVideo env w prompt config)) = []
   ∧ count_fetches (run_trace (generateVideo env w prompt config)) = 0%nat
   ∧ run_outcome (generateVideo env w prompt config) ≠ Return tt)
  ∨ (yields (run_trace (generateVideo env w prompt config)) = [fetching]
     ∧ count_fetches (run_trace (generateVideo env w prompt config)) = 1%nat
     ∧ run_outcome (generateVideo env w prompt config) ≠ Return tt)
  ∨ (∃ url, yields (run_trace (generateVideo env w prompt config))
            = [fetching; completed url]
            ∧ count_fetches (run_trace (generateVideo env w prompt config)) = 1%nat
            ∧ run_outcome (generateVideo env w prompt config) = Return tt).
Proof.
  destruct (generateVideo_decompose env w prompt config)
    as (pre & Hy & Hf & _ & _ & [[e Hrun] | (first & _ & Hrun)]).
  { left. rewrite Hrun. unfold run_trace, run_outcome. cbn [fst snd]. by rewrite Hy, Hf. }
  destruct (poll_quiet (polls w) first) as [Hqy Hqf].
  destruct (poll first (polls w)) as [tp [final|e|]]; cbn [fst snd] in *.
  - destruct (deliver_shape env w final)
      as (_ & _ & [(Hdy & Hdf & e & Hdo) | [(Hdy & Hdf & e & Hdo) | (url & Hdy & Hdf & Hdo)]]);
      rewrite Hrun; unfold run_trace, run_outcome; cbn [fst snd];
      rewrite !yields_app, !count_fetches_app, Hy, Hf, Hqy, Hqf, Hdy, Hdf, Hdo.
    + by left.
    + right; by left.
    + right; right. by exists url.
  - left. rewrite Hrun. unfold run_trace, run_outcome. cbn [fst snd].
    by rewrite yields_app, count_fetches_app, Hy, Hf, Hqy, Hqf.
  - left. rewrite Hrun. unfold run_trace, run_outcome. cbn [fst snd].
    by rewrite yields_app, count_fetches_app, Hy, Hf, Hqy, Hqf.
Qed.

(** X11.  In every run of [generateVideo], whatever the provider answers:
    the events yielded are nothing, or [fetching] alone, or [fetching] and
    then [completed url]; the generator returns exactly in the last case; and
    the asset is fetched at most once, exactly when [fetching] was yielded. *)
Theorem generateVideo_event_order
    (env : Env) (w : World) (prompt : string) (config : VideoConfig) :
  (yields (run_trace (generateVideo env w prompt config)) = []
   ∧ count_fetches (run_trace (generateVideo env w prompt config)) = 0%nat
   ∧ run_outcome (generateVideo env w prompt config) ≠ Return tt)
  ∨ (yields (run_trace (generateVideo env w prompt config)) = [fetching]
     ∧ count_fetches (run_trace (generateVideo env w prompt config)) = 1%nat
     ∧ run_outcome (generateVideo env w prompt config) ≠ Return tt)
  ∨ (∃ url, yields (run_trace (generateVideo env w prompt config))
            = [fetching; completed url]
            ∧ count_fetches (run_trace (generateVideo env w prompt config)) = 1%nat
            ∧ run_outcome (generateVideo env w prompt config) = Return tt).
Proof. apply generateVideo_event_cases. Qed.

(** X12.  In every run of [generateVideo] each status query is paid for by
    one delay of ten seconds and nothing else is delayed: delays and queries
    are equally many; and an operation that is already done when it is
    submitted is neither waited for nor queried. *)
Theorem generateVideo_one_delay_per_query
    (env : Env) (w : World) (prompt : string) (config : VideoConfig) :
  count_sleeps (run_trace (generateVideo env w prompt config))
  = count_polls (run_trace (generateVideo env w prompt config))
  ∧ (∀ ms, Sleep ms ∈ run_trace (generateVideo env w prompt config) → ms = 10000%Z)
  ∧ (∀ first, submitted w = inr first → truthy_flag (done first) = true →
       count_polls (run_trace (generateVideo env w prompt config)) = 0%nat).
Proof.
  destruct (generateVideo_decompose env w prompt config)
    as (pre & _ & _ & Hs & Hp & Hcases).
  assert (Hten : ∀ answers operation ms,
            Sleep ms ∈ (poll operation answers).1 → ms = 10000%Z).
  { induction answers as [|answer rest IH]; intros operation ms;
      destruct (truthy_flag (done operation)) eqn:Hd.
    - rewrite poll_done by done. by intros ?%elem_of_nil.
    - rewrite poll_unanswered by done. cbn [fst]. unfold poll_round.
      rewrite !elem_of_cons. intros [[= ->] | [? | ?%elem_of_nil]]; done.
    - rewrite poll_done by done. by intros ?%elem_of_nil.
    - destruct answer as [e|next].
      + rewrite poll_rejected by done. cbn [fst]. unfold poll_round. cbn [app].
        rewrite !elem_of_cons. intros [[= ->] | [? | [? | ?%elem_of_nil]]]; done.
      + rewrite poll_answered by done. cbn [fst]. unfold poll_round. cbn [app].
        rewrite !elem_of_cons. intros [[= ->] | [? | ?]]; try done. by eapply IH. }
  assert (Hpre : ∀ ms, Sleep ms ∉ pre).
  { intros ms Hin. unfold count_sleeps in Hs.
    assert (Hin' : Sleep ms ∈ filter (λ e, is_sleep e = true) pre)
      by (apply list_elem_of_filter; by split).
    destruct (filter (λ e, is_sleep e = true) pre); [by apply elem_of_nil in Hin'|done]. }
  assert (Hdel : ∀ final ms, Sleep ms ∉ (deliver env w final).1).
  { intros final ms Hin. destruct (deliver_shape env w final) as (Hds & _).
    unfold count_sleeps in Hds.
    assert (Hin' : Sleep ms ∈ filter (λ e, is_sleep e = true) (deliver env w final).1)
      by (apply list_elem_of_filter; by split).
    destruct (filter (λ e, is_sleep e = true) (deliver env w final).1);
      [by apply elem_of_nil in Hin'|done]. }
  destruct Hcases as [[e Hrun] | (first & Hsub & Hrun)].
  { rewrite Hrun. unfold run_trace. cbn [fst]. rewrite Hs, Hp.
    split; [reflexivity|]. split; [intros ms Hin; by destruct (Hpre ms)|done]. }
  pose proof (poll_sleeps (polls w) first) as Hps.
  pose proof (Hten (polls w) first) as Hten1.
  assert (Hzero : truthy_flag (done first) = true →
            (poll first (polls w)) = ([], Return first)) by apply poll_done.
  destruct (poll first (polls w)) as [tp [final|e|]] eqn:Hpoll; cbn [fst snd] in *;
    rewrite Hrun; unfold run_trace; cbn [fst].
  - destruct (deliver_shape env w final) as (Hds & Hdp & _).
    rewrite !count_sleeps_app, !count_polls_app, Hs, Hp, Hps, Hds, Hdp.
    split; [reflexivity|]. split.
    + intros ms. rewrite !elem_of_app. intros [[Hin | Hin] | Hin].
      * by destruct (Hpre ms).
      * by apply Hten1.
      * by destruct (Hdel final ms).
    + intros first' Hsub' Hdone. rewrite Hsub in Hsub'. injection Hsub' as <-.
      specialize (Hzero Hdone). injection Hzero as -> _. reflexivity.
  - rewrite !count_sleeps_app, !count_polls_app, Hs, Hp, Hps.
    split; [reflexivity|]. split.
    + intros ms. rewrite !elem_of_app. intros [Hin | Hin].
      * by destruct (Hpre ms).
      * by apply Hten1.
    + intros first' Hsub' Hdone. rewrite Hsub in Hsub'. injection Hsub' as <-.
      specialize (Hzero Hdone). discriminate.
  - rewrite !count_sleeps_app, !count_polls_app, Hs, Hp, Hps.
    split; [reflexivity|]. split.
    + intros ms. rewrite !elem_of_app. intros [Hin | Hin].
      * by destruct (Hpre ms).
      * by apply Hten1.
    + intros first' Hsub' Hdone. rewrite Hsub in Hsub'. injection Hsub' as <-.
      specialize (Hzero Hdone). discriminate.
Qed.

(** X13.  A job that finishes without an error but without a usable link
    (no response, no generated video, no [uri], or an empty [uri]) makes the
    generator throw [Video generation failed to produce a download link.]
    having yielded nothing and fetched nothing. *)
Theorem generateVideo_missing_link
    (env : Env) (w : World) (prompt : string) (config : VideoConfig)
    (first final : Operation) (tp : Trace) :
  truthy (API_KEY env) = true →
  image_readable config = true →
  submitted w = inr first →
  poll first (polls w) = (tp, Return final) →
  error final = None →
  truthy (download_link final) = false →
  run_outcome (generateVideo env w prompt config)
  = Throw (Error "Video generation failed to produce a download link.")
  ∧ yields (run_trace (generateVideo env w prompt config)) = []
  ∧ count_fetches (run_trace (generateVideo env w prompt config)) = 0%nat.
Proof.
  intros Hkey Himg Hsub Hpoll Herr Hlink.
  destruct (generateVideo_polled env w prompt config first final tp Hkey Himg Hsub Hpoll)
    as (pre & Hrun & Hy & _ & Hf).
  assert (Hdel : deliver env w final
                 = ([], Throw (Error "Video generation failed to produce a download link."))).
  { unfold deliver. by rewrite Herr, Hlink. }
  rewrite Hdel in Hrun. cbn [fst snd] in Hrun.
  destruct (poll_quiet (polls w) first) as [Hqy Hqf]. rewrite Hpoll in Hqy, Hqf.
  cbn [fst] in Hqy, Hqf.
  rewrite Hrun. unfold run_outcome, run_trace. cbn [fst snd].
  rewrite !yields_app, !count_fetches_app, Hy, Hf, Hqy, Hqf. done.
Qed.

Lemma generateVideo_missing_link_witness :
  run_outcome (generateVideo with_key
                 {| submitted := inr op_running;
                    polls := [inr {| name := "operations/42"; done := Some true;
                                     error := None;
                                     response := Some {| generatedVideos := Some [] |} |}];
                    fetched := inr asset_ok;
                    createObjectURL := object_url |} "a cat" text_only)
  = Throw (Error "Video generation failed to produce a download link.").
Proof.
  exact (proj1 (generateVideo_missing_link with_key
                  {| submitted := inr op_running;
                     polls := [inr {| name := "operations/42"; done := Some true;
                                      error := None;
                                      response := Some {| generatedVideos := Some [] |} |}];
                     fetched := inr asset_ok;
                     createObjectURL := object_url |} "a cat" text_only
                  op_running _ (poll_round op_running)
                  eq_refl eq_refl eq_refl eq_refl eq_refl eq_refl)).
Defined.

End VideoRunFacts.

(** ** Transcription: messages, errors, audio, invariants *)

Section TranscribeMoreFacts.
Import Transcribe.

(** X14.  For every inbound message and every buffer, [onmessage] makes at
    most two calls, all of them [onTranscriptionUpdate]; an interim call, if
    any, comes first and carries the fragment of the message; a final call
    never carries empty text; after a message that signals turn completion
    the buffer is empty; and a message that carries both a non-empty
    fragment and the marker is reported twice, interim and then final. *)
Theorem onmessage_calls (message : LiveServerMessage) (buffer : string) :
  (length (onmessage message buffer).2 <= 2)%nat
  ∧ (∀ c, c ∈ (onmessage message buffer).2 →
       ∃ transcript isFinal, c = onTranscriptionUpdate transcript isFinal)
  ∧ (∀ transcript, onTranscriptionUpdate transcript true ∈ (onmessage message buffer).2 →
       transcript ≠ "")
  ∧ (∀ tr, serverContent message ≫= inputTranscription = Some tr →
       head (onmessage message buffer).2 = Some (onTranscriptionUpdate (text tr) false))
  ∧ (truthy_flag (serverContent message ≫= turnComplete) = true →
       (onmessage message buffer).1 = "")
  ∧ (∀ fragment, fragment ≠ "" →
       onmessage (fragment_only fragment (Some true)) buffer
       = ("", [onTranscriptionUpdate fragment false; onTranscriptionUpdate fragment true])).
Proof.
  assert (Hempty : ∀ s, truthy (Some s) = false → s = "").
  { intros s. unfold truthy. destruct (String.eqb_spec s ""); by intros. }
  assert (Hfull : ∀ s, truthy (Some s) = true → s ≠ "").
  { intros s Ht ->. discriminate. }
  assert (Hboth : ∀ fragment, fragment ≠ "" →
            onmessage (fragment_only fragment (Some true)) buffer
            = ("", [onTranscriptionUpdate fragment false;
                    onTranscriptionUpdate fragment true])).
  { intros fragment Hne. unfold onmessage. cbn -[truthy]. by rewrite truthy_nonempty. }
  unfold onmessage.
  destruct (serverContent message ≫= inputTranscription) as [tr|] eqn:Htr;
    destruct (truthy_flag (serverContent message ≫= turnComplete)) eqn:Htc;
    [destruct (truthy (Some (text tr))) eqn:Hb | |
     destruct (truthy (Some buffer)) eqn:Hb | ];
    cbn [fst snd app length];
    (split; [lia|]);
    (split; [intros c Hin;
             repeat (apply elem_of_cons in Hin as [->|Hin]; [by eexists _, _|]);
             by apply elem_of_nil in Hin|]);
    (split; [intros t Hin;
             repeat (apply elem_of_cons in Hin as [Heq|Hin];
                     [try discriminate; injection Heq as ->; by apply Hfull|]);
             by apply elem_of_nil in Hin|]);
    (split; [intros tr' Heq; try discriminate; by injection Heq as <-|]);
    (split; [intros Htrue; try discriminate; try done; by apply Hempty|]);
    exact Hboth.
Qed.

Lemma onmessage_calls_witness :
  onmessage (fragment_only "good morning" (Some true)) "good mor"
  = ("", [onTranscriptionUpdate "good morning" false;
          onTranscriptionUpdate "good morning" true]).
Proof.
  destruct (onmessage_calls (fragment_only "good morning" (Some true)) "good mor")
    as (_ & _ & _ & _ & _ & Hboth).
  apply Hboth. discriminate.
Defined.

(** X15.  An error event on a live socket logs it, hands the UI an [Error]
    whose message is the event's message, or the fixed fallback text when the
    event has none or an empty one, and clears the handle without touching
    any session; a start that follows (with a credential) is therefore not
    turned away: it requests a new connection, which the handle then names. *)
Theorem socket_error_then_restart
    (st : State) (i : nat) (s : Session) (msg : option string)
    (env : Env) (callbacks : nat) :
  sessions st !! i = Some s →
  socket s ≠ Closed →
  truthy (API_KEY env) = true →
  ∃ st1 st2 shown,
    step (SocketError i msg) st
    = Some (st1, [Console ErrorLevel "Transcription session error:";
                  Call (owner s) (onError (Error shown))])
    ∧ (truthy msg = true → msg = Some shown)
    ∧ (truthy msg = false → shown = "An unknown error occurred during transcription.")
    ∧ liveSessionPromise st1 = None
    ∧ sessions st1 = sessions st
    ∧ step (Start env callbacks) st1 = Some (st2, [Remote (LiveConnect live_model)])
    ∧ liveSessionPromise st2 = Some (length (sessions st))
    ∧ length (sessions st2) = S (length (sessions st)).
Proof.
  intros Hs Hsock Hkey.
  exists (set_handle None st).
  eexists. exists (if truthy msg then render msg
                   else "An unknown error occurred during transcription.").
  split.
  { unfold step. rewrite Hs. cbn [mbind option_bind]. by destruct (socket s). }
  split.
  { intros Ht. rewrite Ht. destruct msg as [m|]; [done|discriminate]. }
  split; [by intros ->|].
  split; [reflexivity|]. split; [reflexivity|].
  cbn [step]. unfold startTranscriptionSession. cbn [set_handle liveSessionPromise].
  rewrite Hkey. cbn [negb sessions].
  split; [reflexivity|]. split; [reflexivity|].
  simpl. rewrite length_app. simpl. lia.
Qed.

Lemma socket_error_then_restart_witness :
  ∃ st1, step (SocketError 0 (Some "")) (startTranscriptionSession with_key 7 init).1
         = Some (st1, [Console ErrorLevel "Transcription session error:";
                       Call 7 (onError (Error "An unknown error occurred during transcription."))])
         ∧ liveSessionPromise st1 = None.
Proof.
  destruct (socket_error_then_restart (startTranscriptionSession with_key 7 init).1 0
              {| owner := 7; currentTranscript := ""; socket := Connecting;
                 promise := Unsettled; waiting := [] |} (Some "") with_key 8
              eq_refl) as (st1 & st2 & shown & Hstep & _ & Hshown & Hh & _);
    [discriminate | reflexivity |].
  exists st1. rewrite (Hshown eq_refl) in Hstep. by split.
Defined.

End TranscribeMoreFacts.

(** ** Transcription: invariants of every schedule *)

Section TranscribeInvariants.
Import Transcribe.

Lemma placed_update (st : State) (i : nat) (s s' : Session) (h : option nat)
    (q : list (nat * Reaction)) :
  reactions_placed st →
  sessions st !! i = Some s →
  (promise s' ≠ Unsettled → waiting s' = []) →
  (promise s ≠ Unsettled → promise s' ≠ Unsettled) →
  (∀ x, x ∈ q → x ∈ microtasks st ∨ (x.1 = i ∧ promise s' ≠ Unsettled)) →
  reactions_placed {| liveSessionPromise := h;
                      sessions := <[i := s']> (sessions st);
                      microtasks := q |}.
Proof.
  intros [Hq Hw] Hs Hw' Hp' Hsub.
  assert (Hlt : (i < length (sessions st))%nat) by by eapply lookup_lt_Some.
  split; cbn [sessions microtasks].
  - intros j r Hin. destruct (Hsub _ Hin) as [Hold | [Hj Hset]]; cbn [fst] in *.
    + destruct (Hq j r Hold) as (sj & Hsj & Hpj).
      destruct (decide (i = j)) as [<-|Hne].
      * exists s'. rewrite list_lookup_insert_eq by done. split; [done|].
        apply Hp'. by replace s with sj by congruence.
      * exists sj. by rewrite list_lookup_insert_ne.
    + subst j. exists s'. by rewrite list_lookup_insert_eq.
  - intros j sj Hsj Hpj. destruct (decide (i = j)) as [<-|Hne].
    + rewrite list_lookup_insert_eq in Hsj by done. injection Hsj as <-. by apply Hw'.
    + rewrite list_lookup_insert_ne in Hsj by done. by eapply Hw.
Qed.

Lemma placed_same_sessions (st : State) (h : option nat) (q : list (nat * Reaction)) :
  reactions_placed st →
  (∀ x, x ∈ q → x ∈ microtasks st
                ∨ ∃ s, sessions st !! x.1 = Some s ∧ promise s ≠ Unsettled) →
  reactions_placed {| liveSessionPromise := h; sessions := sessions st; microtasks := q |}.
Proof.
  intros [Hq Hw] Hsub. split; cbn [sessions microtasks]; [|exact Hw].
  intros j r Hin. destruct (Hsub _ Hin) as [Hold | Hnew]; [by eapply Hq | exact Hnew].
Qed.

Lemma react_invariant (i : nat) (r : Reaction) (st : State) :
  liveSessionPromise st = Some i →
  handle_is_latest st → reactions_placed st →
  handle_is_latest (react i r st) ∧ reactions_placed (react i r st)
  ∧ length (sessions (react i r st)) = length (sessions st).
Proof.
  intros Hh Hl Hp. unfold react.
  destruct (sessions st !! i) as [s|] eqn:Hs; [|done].
  destruct (promise s) eqn:Hps.
  - split; [|split].
    + intros j Hj. cbn in Hj |- *. rewrite length_insert. by apply Hl.
    + unfold set_session. eapply placed_update; [done|exact Hs| | |].
      * cbn [promise]. intros H. exfalso. apply H. first [reflexivity | exact Hps].
      * intros H. exfalso. apply H. first [reflexivity | exact Hps].
      * intros x Hx. by left.
    + cbn. apply length_insert.
  - split; [exact Hl|]. split; [|done].
    apply placed_same_sessions; [done|].
    intros x [Hx | ->%list_elem_of_singleton]%elem_of_app; [by left|].
    right. exists s. cbn [fst]. split; [done|]. by rewrite Hps.
  - split; [exact Hl|]. split; [|done].
    apply placed_same_sessions; [done|].
    intros x [Hx | ->%list_elem_of_singleton]%elem_of_app; [by left|].
    right. exists s. cbn [fst]. split; [done|]. by rewrite Hps.
Qed.

Lemma settle_invariant (i : nat) (s : Session) (p : PromiseState) (sock : Socket)
    (st : State) :
  sessions st !! i = Some s →
  p ≠ Unsettled →
  handle_is_latest st → reactions_placed st →
  handle_is_latest (settle_promise i s p sock st)
  ∧ reactions_placed (settle_promise i s p sock st)
  ∧ length (sessions (settle_promise i s p sock st)) = length (sessions st).
Proof.
  intros Hs Hp Hl Hpl. unfold settle_promise. split; [|split].
  - intros j Hj. cbn in Hj |- *. rewrite length_insert. by apply Hl.
  - eapply placed_update; [done|exact Hs|done|done|].
    intros x [Hx | Hx]%elem_of_app; [by left|].
    apply list_elem_of_fmap in Hx as (r & -> & _). by right.
  - cbn. apply length_insert.
Qed.

(** One step keeps the invariants and opens as many connections as it
    requests. *)
Lemma step_invariant (ev : Event) (st st' : State) (t : Trace) :
  step ev st = Some (st', t) →
  handle_is_latest st → reactions_placed st →
  handle_is_latest st' ∧ reactions_placed st'
  ∧ length (sessions st') = (length (sessions st) + connects t)%nat.
Proof.
  intros Hstep Hl Hp. destruct ev as [env cb| |blob|i|i e|i m|i msg|i|fails]; cbn [step] in Hstep.
  - injection Hstep as Hst. unfold startTranscriptionSession in Hst.
    destruct (liveSessionPromise st) as [j|] eqn:Hh.
    { injection Hst as <- <-. count_connects 0%nat. split; [done|]. split; [done|lia]. }
    destruct (negb (truthy (API_KEY env))).
    { injection Hst as <- <-. count_connects 0%nat. split; [done|]. split; [done|lia]. }
    injection Hst as <- <-. split; [|split].
    + intros j [= <-]. cbn. rewrite length_app. cbn. lia.
    + destruct Hp as [Hq Hw]. split; cbn [sessions microtasks].
      * intros j r Hin. destruct (Hq j r Hin) as (s & Hs & Hps).
        exists s. split; [|done]. by apply lookup_app_l_Some.
      * intros j s Hs Hps. apply lookup_app_Some in Hs as [Hs | [_ Hs]]; [by eapply Hw|].
        apply list_lookup_singleton_Some in Hs as [_ <-]. by destruct Hps.
    + count_connects 1%nat. cbn [sessions]. rewrite length_app. cbn [length]. lia.
  - injection Hstep as Hst. unfold stopTranscriptionSession in Hst.
    destruct (liveSessionPromise st) as [j|] eqn:Hh; injection Hst as <- <-.
    + destruct (react_invariant j StopChain st Hh Hl Hp) as (? & ? & ->).
      count_connects 0%nat. split; [done|]. split; [done|]. lia.
    + count_connects 0%nat. split; [done|]. split; [done|]. lia.
  - injection Hstep as Hst. unfold sendAudioForTranscription in Hst.
    destruct (liveSessionPromise st) as [j|] eqn:Hh; injection Hst as <- <-.
    + destruct (react_invariant j (SendChain blob) st Hh Hl Hp) as (? & ? & ->).
      count_connects 0%nat. split; [done|]. split; [done|]. lia.
    + count_connects 0%nat. split; [done|]. split; [done|]. lia.
  - destruct (sessions st !! i) as [s|] eqn:Hs; [|done]. cbn [mbind option_bind] in Hstep.
    destruct (socket s), (promise s); try done. injection Hstep as <- <-.
    destruct (settle_invariant i s Fulfilled Open st Hs ltac:(done) Hl Hp) as (? & ? & ->).
    count_connects 0%nat. split; [done|]. split; [done|]. lia.
  - destruct (sessions st !! i) as [s|] eqn:Hs; [|done]. cbn [mbind option_bind] in Hstep.
    destruct (socket s), (promise s); try done. injection Hstep as <- <-.
    destruct (settle_invariant i s (Rejected e) Closed st Hs ltac:(done) Hl Hp) as (? & ? & ->).
    count_connects 0%nat. split; [done|]. split; [done|]. lia.
  - destruct (sessions st !! i) as [s|] eqn:Hs; [|done]. cbn [mbind option_bind] in Hstep.
    destruct (socket s); try done.
    destruct (onmessage m (currentTranscript s)) as [cur calls].
    injection Hstep as <- <-. split; [|split].
    + intros j Hj. cbn in Hj |- *. rewrite length_insert. by apply Hl.
    + unfold set_session. eapply placed_update; [done|exact Hs| |done|].
      * cbn [with_transcript promise waiting]. by apply (proj2 Hp i s).
      * intros x Hx. by left.
    + cbn [set_session sessions]. rewrite length_insert.
      assert (Hc : connects (Call (owner s) <$> calls) = 0%nat).
      { unfold connects. induction calls as [|c calls IH]; [done|]. exact IH. }
      rewrite Hc. lia.
  - destruct (sessions st !! i) as [s|] eqn:Hs; [|done]. cbn [mbind option_bind] in Hstep.
    assert (Hres : st' = set_handle None st
                   ∧ connects t = 0%nat).
    { destruct (socket s); try done; by injection Hstep as <- <-. }
    destruct Hres as [-> Hc]. rewrite Hc. split; [done|]. split; [|cbn; lia].
    unfold set_handle. apply placed_same_sessions; [done|]. intros x Hx. by left.
  - destruct (sessions st !! i) as [s|] eqn:Hs; [|done]. cbn [mbind option_bind] in Hstep.
    assert (Hres : st' = set_handle None (set_session i (with_socket s Closed) st)
                   ∧ connects t = 0%nat).
    { destruct (socket s); try done; by injection Hstep as <- <-. }
    destruct Hres as [-> Hc]. rewrite Hc. split; [done|]. split.
    + unfold set_handle, set_session. cbn [sessions microtasks liveSessionPromise].
      eapply placed_update; [done|exact Hs| |done|].
      * cbn [with_socket promise waiting]. by apply (proj2 Hp i s).
      * intros x Hx. by left.
    + cbn. rewrite length_insert. lia.
  - destruct (microtasks st) as [|[i r] queue] eqn:Hq; [done|].
    destruct (sessions st !! i) as [s|] eqn:Hs; [|done]. cbn [mbind option_bind] in Hstep.
    injection Hstep as Hrun.
    assert (Hqueue : ∀ x, x ∈ queue → x ∈ microtasks st).
    { intros x Hx. rewrite Hq. by right. }
    assert (Hsame : ∀ h, reactions_placed {| liveSessionPromise := h;
                                             sessions := sessions st;
                                             microtasks := queue |}).
    { intros h. apply placed_same_sessions; [done|]. intros x Hx. left. by apply Hqueue. }
    assert (Hsock : ∀ h sock,
              reactions_placed {| liveSessionPromise := h;
                                  sessions := <[i := with_socket s sock]> (sessions st);
                                  microtasks := queue |}).
    { intros h sock. eapply placed_update; [done|exact Hs| |done|].
      - cbn [with_socket promise waiting]. by apply (proj2 Hp i s).
      - intros x Hx. left. by apply Hqueue. }
    unfold run_reaction in Hrun.
    destruct r as [|blob]; destruct (promise s), fails; injection Hrun as <- <-;
      unfold set_handle, set_session; cbn [sessions microtasks liveSessionPromise];
      (split; [try done; intros j Hj; cbn in Hj |- *; try rewrite length_insert; by apply Hl|]);
      (split; [try apply Hsame; apply Hsock|]);
      count_connects 0%nat; cbn [sessions]; try rewrite length_insert; lia.
Qed.

Lemma run_invariant (evs : list Event) :
  ∀ (st st' : State) (t : Trace),
    run evs st = Some (st', t) →
    handle_is_latest st → reactions_placed st →
    handle_is_latest st' ∧ reactions_placed st'
    ∧ length (sessions st') = (length (sessions st) + connects t)%nat.
Proof.
  induction evs as [|ev evs IH]; intros st st' t Hrun Hl Hp.
  - injection Hrun as <- <-. split; [done|]. split; [done|]. cbn. lia.
  - cbn [run] in Hrun.
    destruct (step ev st) as [[st1 t1]|] eqn:Hstep; [|done]. cbn [mbind option_bind] in Hrun.
    destruct (run evs st1) as [[st2 t2]|] eqn:Hrest; [|done]. cbn [mbind option_bind] in Hrun.
    injection Hrun as <- <-.
    destruct (step_invariant ev st st1 t1 Hstep Hl Hp) as (Hl1 & Hp1 & Hn1).
    destruct (IH st1 st2 t2 Hrest Hl1 Hp1) as (Hl2 & Hp2 & Hn2).
    split; [done|]. split; [done|].
    unfold connects in *. rewrite filter_app, length_app. lia.
Qed.

(** X17.  Along every schedule of calls, socket events and microtasks that
    starts with no session: the handle, when set, names the connection that
    was opened last; there are exactly as many connections as connection
    requests were sent; a chain waits on a promise only while it is
    unsettled and is queued only once it has settled, so the next microtask
    can always run. *)
Theorem transcription_invariants (evs : list Event) (st : State) (t : Trace) :
  run evs init = Some (st, t) →
  (∀ i, liveSessionPromise st = Some i → S i = length (sessions st))
  ∧ length (sessions st) = connects t
  ∧ (∀ i s, sessions st !! i = Some s → promise s ≠ Unsettled → waiting s = [])
  ∧ (microtasks st ≠ [] → ∀ fails, is_Some (step (Microtask fails) st)).
Proof.
  intros Hrun.
  destruct (run_invariant evs init st t Hrun) as (Hl & [Hq Hw] & Hn).
  - by intros i.
  - split; [by intros i r ?%elem_of_nil | by intros i s].
  - split; [exact Hl|]. split; [exact Hn|]. split; [exact Hw|].
    intros Hne fails. cbn [step].
    destruct (microtasks st) as [|[i r] queue] eqn:Hm; [done|].
    destruct (Hq i r) as (s & Hs & _); [try rewrite Hm; by left|].
    rewrite Hs. by eexists.
Qed.

Lemma transcription_invariants_witness :
  ∃ st t, run stale_close_schedule init = Some (st, t)
          ∧ liveSessionPromise st = Some 2%nat
          ∧ length (sessions st) = connects t.
Proof.
  eexists _, _. split; [reflexivity|]. split; [reflexivity|].
  exact (proj1 (proj2 (transcription_invariants stale_close_schedule _ _ eq_refl))).
Defined.

End TranscribeInvariants.

(** ** Transcription: audio sent before the connection is open *)

Section TranscribeAudioFacts.
Import Transcribe.

Lemma run_app (evs1 evs2 : list Event) :
  ∀ st, run (evs1 ++ evs2) st
        = '(st1, t1) ← run evs1 st; '(st2, t2) ← run evs2 st1; Some (st2, t1 ++ t2).
Proof.
  induction evs1 as [|ev evs1 IH]; intros st.
  - cbn [app run mbind option_bind]. by destruct (run evs2 st) as [[st2 t2]|].
  - cbn [app run]. destruct (step ev st) as [[st1 t1]|]; [|done].
    cbn [mbind option_bind]. rewrite IH.
    destruct (run evs1 st1) as [[st2 t2]|]; [|done]. cbn [mbind option_bind].
    destruct (run evs2 st2) as [[st3 t3]|]; [|done]. cbn [mbind option_bind].
    by rewrite app_assoc.
Qed.

(** While the promise is unsettled each chunk is hung on it, in call order,
    and nothing is sent. *)
Lemma sends_wait (i : nat) (blobs : list string) :
  ∀ (st : State) (s : Session),
    liveSessionPromise st = Some i →
    sessions st !! i = Some s →
    promise s = Unsettled →
    ∃ st' s',
      run (SendAudio <$> blobs) st = Some (st', [])
      ∧ liveSessionPromise st' = Some i
      ∧ microtasks st' = microtasks st
      ∧ sessions st' !! i = Some s'
      ∧ waiting s' = waiting s ++ (SendChain <$> blobs)
      ∧ promise s' = Unsettled
      ∧ socket s' = socket s.
Proof.
  induction blobs as [|b blobs IH]; intros st s Hh Hs Hp.
  - exists st, s. cbn [fmap list_fmap run]. rewrite app_nil_r. by repeat split.
  - cbn [fmap list_fmap run step]. unfold sendAudioForTranscription, react.
    rewrite Hh, Hs, Hp. cbn [mbind option_bind].
    assert (Hlt : (i < length (sessions st))%nat) by by eapply lookup_lt_Some.
    edestruct (IH (set_session i
                     {| owner := owner s; currentTranscript := currentTranscript s;
                        socket := socket s; promise := Unsettled;
                        waiting := waiting s ++ [SendChain b] |} st))
      as (st' & s' & Hrun & Hh' & Hm' & Hs' & Hw' & Hp' & Hsock');
      [exact Hh | cbn; by apply list_lookup_insert_eq | reflexivity |].
    exists st', s'. fold (@fmap list _ _ _ SendAudio blobs). rewrite Hrun.
    cbn [mbind option_bind app]. repeat (split; [done|]).
    split; [|done]. rewrite Hw'. cbn [waiting fmap list_fmap]. by rewrite <- app_assoc.
Qed.

(** Once the promise is fulfilled the queued chunks go out one per
    microtask, in the order of the queue. *)
Lemma queued_sends_drain (i : nat) (blobs : list string) :
  ∀ (st : State) (s : Session),
    microtasks st = (λ b, (i, SendChain b)) <$> blobs →
    sessions st !! i = Some s →
    promise s = Fulfilled →
    ∃ st',
      run (replicate (length blobs) (Microtask None)) st
      = Some (st', (λ b, Remote (SendRealtimeInput i b)) <$> blobs)
      ∧ microtasks st' = []
      ∧ sessions st' = sessions st
      ∧ liveSessionPromise st' = liveSessionPromise st.
Proof.
  induction blobs as [|b blobs IH]; intros st s Hm Hs Hp.
  - exists st. by repeat split.
  - cbn [length replicate run step]. rewrite Hm. cbn [fmap list_fmap].
    rewrite Hs. cbn [mbind option_bind run_reaction]. rewrite Hp.
    edestruct (IH {| liveSessionPromise := liveSessionPromise st;
                     sessions := sessions st;
                     microtasks := (λ b, (i, SendChain b)) <$> blobs |})
      as (st' & Hrun & Hm' & Hs' & Hh'); [reflexivity | exact Hs | exact Hp |].
    exists st'. fold (@fmap list _ _ _ (λ b, (i, SendChain b)) blobs).
    rewrite Hrun. cbn [mbind option_bind app]. by repeat split.
Qed.

Lemma sent_audio_sends (i : nat) (blobs : list string) :
  sent_audio ((λ b, Remote (SendRealtimeInput i b)) <$> blobs) = (λ b, (i, b)) <$> blobs.
Proof.
  unfold sent_audio. induction blobs as [|b blobs IH]; [done|].
  cbn [fmap list_fmap omap list_omap]. by f_equal.
Qed.

(** X16.  Audio handed over while the connection is still being opened is
    not lost and not reordered: nothing is sent before the connection opens,
    and after it each chunk is sent exactly once, to that connection, in the
    order of the calls.  Audio handed over while no session handle is set is
    dropped with a diagnostic, and the state is left as it was. *)
Theorem audio_before_open_is_sent_in_order
    (st : State) (i : nat) (s : Session) (blobs : list string) :
  liveSessionPromise st = Some i →
  sessions st !! i = Some s →
  promise s = Unsettled →
  socket s = Connecting →
  waiting s = [] →
  microtasks st = [] →
  (∃ st0, run (SendAudio <$> blobs) st = Some (st0, []))
  ∧ (∃ st' t, run (send_before_open i blobs) st = Some (st', t)
              ∧ sent_audio t = (λ b, (i, b)) <$> blobs
              ∧ microtasks st' = []
              ∧ liveSessionPromise st' = Some i)
  ∧ (∀ idle pcmBlob, liveSessionPromise idle = None →
       step (SendAudio pcmBlob) idle
       = Some (idle, [Console ErrorLevel
                        "Cannot send audio, transcription session not started."])).
Proof.
  intros Hh Hs Hp Hsock Hw Hm.
  destruct (sends_wait i blobs st s Hh Hs Hp)
    as (st1 & s1 & Hrun1 & Hh1 & Hm1 & Hs1 & Hw1 & Hp1 & Hsock1).
  split; [by exists st1|]. split.
  - unfold send_before_open. rewrite run_app, Hrun1. cbn [mbind option_bind].
    rewrite run_app. cbn [run step]. rewrite Hs1. cbn [mbind option_bind].
    rewrite Hsock1, Hsock, Hp1. cbn [mbind option_bind].
    assert (Hlt : (i < length (sessions st1))%nat) by by eapply lookup_lt_Some.
    edestruct (queued_sends_drain i blobs (settle_promise i s1 Fulfilled Open st1))
      as (st2 & Hrun2 & Hm2 & _ & Hh2).
    + unfold settle_promise. cbn [microtasks]. rewrite Hm1, Hm, Hw1, Hw. cbn [app].
      by rewrite <- list_fmap_compose.
    + unfold settle_promise. cbn [sessions]. by apply list_lookup_insert_eq.
    + reflexivity.
    + rewrite Hrun2. cbn [mbind option_bind]. eexists _, _. split; [reflexivity|].
      split; [|split; [exact Hm2|]].
      * cbn [app]. change (sent_audio (Console LogLevel "Transcription session opened." :: ?t))
          with (sent_audio t). apply sent_audio_sends.
      * rewrite Hh2. exact Hh1.
  - intros idle pcmBlob Hidle. cbn [step]. unfold sendAudioForTranscription.
    by rewrite Hidle.
Qed.

Lemma audio_before_open_is_sent_in_order_witness :
  ∃ st' t, run (send_before_open 0 ["chunk-1"; "chunk-2"; "chunk-3"])
             (startTranscriptionSession with_key 7 init).1 = Some (st', t)
           ∧ sent_audio t = [(0%nat, "chunk-1"); (0%nat, "chunk-2"); (0%nat, "chunk-3")].
Proof.
  destruct (audio_before_open_is_sent_in_order
              (startTranscriptionSession with_key 7 init).1 0
              {| owner := 7; currentTranscript := ""; socket := Connecting;
                 promise := Unsettled; waiting := [] |}
              ["chunk-1"; "chunk-2"; "chunk-3"]
              eq_refl eq_refl eq_refl eq_refl eq_refl eq_refl)
    as (_ & (st' & t & Hrun & Hsent & _) & _).
  by exists st', t.
Defined.

End TranscribeAudioFacts.

(** ** The live transcript shown by the transcription mode *)

Section TranscribeUiFacts.
Import Transcribe TranscribeUi.

Lemma string_app_assoc (a b c : string) : (a +:+ b) +:+ c = a +:+ (b +:+ c).
Proof.
  induction a as [|x a IH]; [reflexivity|].
  change (String x ((a +:+ b) +:+ c) = String x (a +:+ (b +:+ c))). by rewrite IH.
Qed.

Lemma string_app_nil_r (a : string) : a +:+ "" = a.
Proof.
  induction a as [|x a IH]; [reflexivity|].
  change (String x (a +:+ "") = String x a). by rewrite IH.
Qed.

Lemma hear_app (ms1 ms2 : list LiveServerMessage) :
  ∀ buffer v, hear (ms1 ++ ms2) buffer v
              = hear ms2 (hear ms1 buffer v).1 (hear ms1 buffer v).2.
Proof.
  induction ms1 as [|m ms1 IH]; intros buffer v; [reflexivity|].
  cbn [app hear]. destruct (onmessage m buffer) as [buffer' calls]. apply IH.
Qed.

(** Interim fragments replace one another: after any number of them the
    buffer and the interim text are the latest one. *)
Lemma hear_fragments (fragments : list string) :
  ∀ latest buffer v,
    hear ((λ f, fragment_only f None) <$> (fragments ++ [latest])) buffer v
    = (latest, {| transcript := latest; finalTranscript := finalTranscript v |}).
Proof.
  induction fragments as [|f fragments IH]; intros latest buffer v.
  - reflexivity.
  - cbn [app fmap list_fmap hear].
    rewrite onmessage_fragment by done. cbn [foldl receive onTranscriptionUpdate_ui].
    fold (@fmap list _ _ _ (λ f, fragment_only f None) (fragments ++ [latest])).
    by rewrite IH.
Qed.

(** X18.  Within one utterance the interim fragments replace one another
    and only the latest is committed: after any fragments followed by the
    turn-complete marker the committed transcript has grown by the latest
    fragment and one space, and the interim text and the buffer are empty. *)
Theorem utterance_commits_latest_fragment
    (fragments : list string) (latest buffer : string) (v : View) :
  latest ≠ "" →
  hear ((λ f, fragment_only f None) <$> (fragments ++ [latest])) buffer v
  = (latest, {| transcript := latest; finalTranscript := finalTranscript v |})
  ∧ hear (((λ f, fragment_only f None) <$> (fragments ++ [latest]))
          ++ [turn_complete_only]) buffer v
    = ("", {| transcript := "";
              finalTranscript := (finalTranscript v +:+ latest) +:+ " " |}).
Proof.
  intros Hne. split; [apply hear_fragments|].
  rewrite hear_app, hear_fragments. cbn [fst snd hear].
  by rewrite onmessage_turn_complete.
Qed.

Lemma utterance_commits_latest_fragment_witness :
  hear [fragment_only "good" None; fragment_only "good mor" None;
        fragment_only "good morning" None; turn_complete_only] ""
    {| transcript := ""; finalTranscript := "hello there " |}
  = ("", {| transcript := ""; finalTranscript := "hello there good morning " |}).
Proof.
  exact (proj2 (utterance_commits_latest_fragment ["good"; "good mor"] "good morning" ""
                  {| transcript := ""; finalTranscript := "hello there " |}
                  ltac:(discriminate))).
Defined.

(** X19.  Whatever messages arrive, committed text is never rewritten: the
    committed transcript after them is the one before them with something
    appended; and the interim text that the mode shows stays equal to the
    utterance buffer of the session when it was equal to it before (as it is
    when both start empty). *)
Theorem committed_transcript_only_grows
    (messages : list LiveServerMessage) (buffer : string) (v : View) :
  (∃ suffix,
     finalTranscript (hear messages buffer v).2 = finalTranscript v +:+ suffix)
  ∧ (transcript v = buffer →
       transcript (hear messages buffer v).2 = (hear messages buffer v).1).
Proof.
  revert buffer v. induction messages as [|m messages IH]; intros buffer v.
  { split; [|done]. exists "". cbn. by rewrite string_app_nil_r. }
  cbn [hear].
  assert (Hstep : (∃ suffix,
              finalTranscript (foldl (λ v c, receive c v) v (onmessage m buffer).2)
              = finalTranscript v +:+ suffix)
            ∧ (transcript v = buffer →
                 transcript (foldl (λ v c, receive c v) v (onmessage m buffer).2)
                 = (onmessage m buffer).1)).
  { unfold onmessage.
    destruct (serverContent m ≫= inputTranscription) as [tr|];
      destruct (truthy_flag (serverContent m ≫= turnComplete));
      [destruct (truthy (Some (text tr))) eqn:Hb | |
       destruct (truthy (Some buffer)) eqn:Hb | ];
      cbn [fst snd app foldl receive onTranscriptionUpdate_ui transcript finalTranscript];
      (split; [|try done]).
    - exists (text tr +:+ " "). apply string_app_assoc.
    - exists "". by rewrite string_app_nil_r.
    - exists "". by rewrite string_app_nil_r.
    - exists (buffer +:+ " "). apply string_app_assoc.
    - exists "". by rewrite string_app_nil_r.
    - exists "". by rewrite string_app_nil_r. }
  destruct (onmessage m buffer) as [buffer' calls]. cbn [fst snd] in Hstep.
  destruct Hstep as [[suffix1 Hs1] Hsame1].
  destruct (IH buffer' (foldl (λ v c, receive c v) v calls)) as [[suffix2 Hs2] Hsame2].
  split.
  - exists (suffix1 +:+ suffix2). by rewrite Hs2, Hs1, string_app_assoc.
  - intros Hv. apply Hsame2. by apply Hsame1.
Qed.

End TranscribeUiFacts.

(** ** The chat mode on top of the session cache *)

Section ChatUiFacts.
Import ChatCache ChatUi.

Lemma handleSendMessage_blank (trim : string → string) (foreign : bool) (env : Env)
    (reply : Response string) (inputText : string) (v : View) (s : Store) :
  truthy (Some (trim inputText)) = false →
  handleSendMessage trim foreign env reply inputText v s = (v, s, []).
Proof. intros Hb. unfold handleSendMessage. by rewrite Hb. Qed.

(** The two ways a turn that was submitted shows up in the chat mode. *)
Lemma handleSendMessage_cases (trim : string → string) (foreign : bool) (env : Env)
    (reply : Response string) (inputText : string) (v : View) (s : Store) :
  truthy (Some (trim inputText)) = true →
  (∃ s' c aiResponse,
     reply = inr aiResponse
     ∧ chats s' !! personality v = Some c
     ∧ handleSendMessage trim foreign env reply inputText v s
       = ({| messages := (messages v ++ [{| role := user; text := inputText |}])
                         ++ [{| role := model; text := aiResponse |}];
             isLoading := false; error := None; personality := personality v |},
          s', [Remote (ChatSend (chat_ref c) inputText)]))
  ∨ (∃ s' t,
       chats s' !! personality v = None
       ∧ (count_remote t <= 1)%nat
       ∧ handleSendMessage trim foreign env reply inputText v s
         = ({| messages := (messages v ++ [{| role := user; text := inputText |}])
                           ++ [apology];
               isLoading := false;
               error := Some "Failed to get response from Mani Ai: Failed to communicate with the Mani Ai service.";
               personality := personality v |},
            s', t)).
Proof.
  intros Hb. unfold handleSendMessage. rewrite Hb. cbn [negb].
  destruct (sendMessageToAI_cases env reply inputText (personality v) s)
    as [(s1 & c & text & Hget & Hreply & Heq) | [(s1 & c & e & _ & _ & Heq) | [_ Heq]]];
    rewrite Heq.
  - left. exists s1, c, text. split; [done|]. split; [|done].
    by eapply getChatInstance_stored.
  - right. eexists _, _. split; [apply clearChatHistory_lookup|]. split; [|reflexivity].
    unfold count_remote. simpl. lia.
  - right. eexists _, _. split; [apply clearChatHistory_lookup|]. split; [|reflexivity].
    unfold count_remote. simpl. lia.
Qed.

(** [handleSendMessage] is the exchange during whose wait nothing is done. *)
Lemma exchange_nothing_during (trim : string → string) (foreign : bool) (env : Env)
    (reply : Response string) (inputText : string) (v : View) (s : Store) :
  exchange trim foreign env reply inputText (λ vs, vs) v s
  = handleSendMessage trim foreign env reply inputText v s.
Proof.
  unfold exchange, handleSendMessage, ChatTurn.start, ChatTurn.resume, sendMessageToAI.
  destruct (negb (truthy (Some (trim inputText)))); [reflexivity|].
  destruct (getChatInstance env (personality v) s) as [s1 [c|e|]];
    [|reflexivity|reflexivity].
  destruct reply as [cause|aiResponse]; reflexivity.
Qed.

(** Clear Chat on a view that shows the user message of a pending turn. *)
Lemma handleClearChat_waiting (v : View) (m : Message) (loading : bool)
    (err : option string) (s : Store) :
  messages v ≠ [] →
  handleClearChat {| messages := messages v ++ [m]; isLoading := loading;
                     error := err; personality := personality v |} s
  = ({| messages := [initialMessage]; isLoading := false; error := None;
        personality := personality v |},
     clearChatHistory (personality v) s).
Proof.
  intros Hne. unfold handleClearChat. cbn [messages personality].
  rewrite length_app. cbn [length].
  destruct (messages v) as [|m0 rest]; [done|]. cbn [length].
  replace (1 <? S (length rest) + 1)%nat with true; [done|].
  symmetry. apply Nat.ltb_lt. lia.
Qed.

(** X20.  A blank message changes nothing and sends nothing.  A message that
    is not blank is sent as typed, untrimmed, through the session of the
    personality selected at that moment.  When the session cannot be created
    the user message and the apology are added and the fixed banner is shown,
    with no request sent.  Otherwise exactly one request is sent, and when the
    reply or the rejection arrives exactly one entry, the reply or the
    apology, is added at the end of the list as it is by then, whatever the
    wait did to the view and to the cache; a rejection shows the fixed banner
    and deletes the session of the turn's personality from the cache as it is
    by then, a reply leaves that cache alone.  So with nothing done during the
    wait two entries are added; but after a Clear Chat during the wait the
    list is the greeting followed by the late entry, and no session is cached
    for the personality even when the turn succeeded. *)
Theorem handleSendMessage_across_await
    (trim : string → string) (foreign : bool) (env : Env)
    (reply : Response string) (inputText : string)
    (during : View * Store → View * Store) (v : View) (s : Store) :
  let userMessage := {| role := user; text := inputText |} in
  let banner := "Failed to get response from Mani Ai: Failed to communicate with the Mani Ai service." in
  let final := exchange trim foreign env reply inputText during v s in
  (truthy (Some (trim inputText)) = false → final = (v, s, []))
  ∧ (truthy (Some (trim inputText)) = true →
       chats s !! personality v = None → truthy (API_KEY env) = false →
       final = ({| messages := messages v ++ [userMessage; apology];
                   isLoading := false; error := Some banner;
                   personality := personality v |},
                clearChatHistory (personality v) s,
                [Console ErrorLevel "Error sending message to Gemini:"]))
  ∧ (truthy (Some (trim inputText)) = true →
       ∀ s1 c, getChatInstance env (personality v) s = (s1, Return c) →
         let meanwhile :=
           during ({| messages := messages v ++ [userMessage]; isLoading := true;
                      error := None; personality := personality v |}, s1) in
         ∃ shown,
           messages final.1.1 = messages meanwhile.1 ++ [{| role := model; text := shown |}]
           ∧ isLoading final.1.1 = false
           ∧ personality final.1.1 = personality meanwhile.1
           ∧ ((reply = inr shown
               ∧ error final.1.1 = error meanwhile.1
               ∧ final.1.2 = meanwhile.2
               ∧ final.2 = [Remote (ChatSend (chat_ref c) inputText)])
              ∨ ((∃ cause, reply = inl cause)
                 ∧ shown = text apology
                 ∧ error final.1.1 = Some banner
                 ∧ final.1.2 = clearChatHistory (personality v) meanwhile.2
                 ∧ final.2 = [Remote (ChatSend (chat_ref c) inputText);
                              Console ErrorLevel "Error sending message to Gemini:"]))
           ∧ ((∀ vs, during vs = vs) →
                messages final.1.1
                = messages v ++ [userMessage; {| role := model; text := shown |}])
           ∧ ((∀ vs, during vs = handleClearChat vs.1 vs.2) → messages v ≠ [] →
                messages final.1.1 = [initialMessage; {| role := model; text := shown |}]
                ∧ chats final.1.2 !! personality v = None)).
Proof.
  cbv zeta. split; [|split].
  - intros Hb. unfold exchange. by rewrite Hb.
  - intros Hb Hnone Hkey. unfold exchange, ChatTurn.start. rewrite Hb. cbn [negb].
    rewrite (getChatInstance_no_key env (personality v) s Hnone Hkey).
    cbn [settled messages]. by rewrite <- app_assoc.
  - intros Hb s1 c Hget. unfold exchange, ChatTurn.start. rewrite Hb, Hget. cbn [negb].
    pose proof (handleClearChat_waiting v {| role := user; text := inputText |}
                  true None s1) as Hclear.
    destruct (during _) as [v2 s2] eqn:Hthen.
    destruct reply as [cause|aiResponse]; cbn [ChatTurn.resume settled fst snd].
    + exists (text apology). cbn [messages isLoading personality error].
      split; [done|]. split; [done|]. split; [done|].
      split; [right; split; [by exists cause|done]|].
      split.
      * intros Hid. rewrite Hid in Hthen. injection Hthen as <- <-.
        cbn [messages]. by rewrite <- app_assoc.
      * intros Hd Hne. rewrite Hd in Hthen. cbn [fst snd] in Hthen.
        rewrite (Hclear Hne) in Hthen. injection Hthen as <- <-.
        split; [done|]. apply clearChatHistory_lookup.
    + exists aiResponse. cbn [messages isLoading personality error].
      split; [done|]. split; [done|]. split; [done|].
      split; [left; done|].
      split.
      * intros Hid. rewrite Hid in Hthen. injection Hthen as <- <-.
        cbn [messages]. by rewrite <- app_assoc.
      * intros Hd Hne. rewrite Hd in Hthen. cbn [fst snd] in Hthen.
        rewrite (Hclear Hne) in Hthen. injection Hthen as <- <-.
        split; [done|]. apply clearChatHistory_lookup.
Qed.

Lemma handleSendMessage_across_await_witness :
  ∃ shown,
    messages (exchange trim_ascii true with_key (inr "4") " 2 + 2? "
                (λ vs, handleClearChat vs.1 vs.2) initial init).1.1
    = [initialMessage; {| role := model; text := shown |}]
    ∧ chats (exchange trim_ascii true with_key (inr "4") " 2 + 2? "
               (λ vs, handleClearChat vs.1 vs.2) initial init).1.2 !! standard = None.
Proof.
  destruct (proj2 (proj2 (handleSendMessage_across_await trim_ascii true with_key
                            (inr "4") " 2 + 2? " (λ vs, handleClearChat vs.1 vs.2)
                            initial init))
              eq_refl _ _ eq_refl) as (shown & _ & _ & _ & _ & _ & Hclear).
  exists shown. apply Hclear; [reflexivity|discriminate].
Defined.

Lemma act_messages (trim : string → string) (foreign : bool) (a : Action)
    (vs : View * Store) :
  (∃ rest, messages vs.1 = initialMessage :: rest) →
  (∃ rest, messages (act trim foreign a vs).1 = initialMessage :: rest).
Proof.
  intros [rest Hm]. destruct vs as [v s]. cbn [fst snd] in *.
  destruct a as [env reply inputText| |p]; cbn [act fst snd].
  - destruct (truthy (Some (trim inputText))) eqn:Hb.
    + destruct (handleSendMessage_cases trim foreign env reply inputText v s Hb)
        as [(s' & c & aiResponse & _ & _ & ->) | (s' & t & _ & _ & ->)];
        cbn [fst messages]; rewrite Hm; by eexists.
    + rewrite handleSendMessage_blank by done. by exists rest.
  - unfold handleClearChat. destruct (1 <? length (messages v))%nat; by eexists.
  - by exists rest.
Qed.

Lemma act_wf (trim : string → string) (foreign : bool) (a : Action) (vs : View * Store) :
  wf vs.2 → wf (act trim foreign a vs).2.
Proof.
  intros Hwf. destruct vs as [v s]. cbn [fst snd] in *.
  destruct a as [env reply inputText| |p]; cbn [act fst snd]; [| |done].
  - unfold handleSendMessage. destruct (negb (truthy (Some (trim inputText)))); [done|].
    destruct (sendMessageToAI env reply inputText (personality v) s) as [s' [t o]] eqn:Hs.
    assert (wf s') by by eapply sendMessageToAI_wf.
    by destruct o.
  - unfold handleClearChat. destruct (1 <? length (messages v))%nat; [|done].
    by apply clearChatHistory_wf.
Qed.

(** X21.  In every state that the chat mode reaches, whatever is typed,
    cleared or selected: the conversation shown begins with the greeting.
    Clearing it there leaves exactly the greeting, and takes from the cache at
    most the session of the personality selected at that moment: the sessions
    of all other personalities stay cached. *)
Theorem chat_mode_clear
    (trim : string → string) (foreign : bool) (actions : list Action) :
  let '(v, s) := session trim foreign actions in
  (∃ rest, messages v = initialMessage :: rest)
  ∧ wf s
  ∧ messages (handleClearChat v s).1 = [initialMessage]
  ∧ personality (handleClearChat v s).1 = personality v
  ∧ (∀ q, q ≠ personality v →
       chats (handleClearChat v s).2 !! q = chats s !! q).
Proof.
  assert (Hinv : ∀ vs, (∃ rest, messages vs.1 = initialMessage :: rest) → wf vs.2 →
            let vs' := foldl (λ vs a, act trim foreign a vs) vs actions in
            (∃ rest, messages vs'.1 = initialMessage :: rest) ∧ wf vs'.2).
  { induction actions as [|a actions IH]; intros vs Hm Hwf; [done|].
    cbn [foldl]. apply IH; [by apply act_messages | by apply act_wf]. }
  unfold session. destruct (Hinv (initial, init)) as [[rest Hm] Hwf].
  { by exists []. }
  { apply wf_init. }
  destruct (foldl (λ vs a, act trim foreign a vs) (initial, init) actions) as [v s].
  cbn [fst snd] in *.
  split; [by exists rest|]. split; [exact Hwf|].
  unfold handleClearChat. rewrite Hm.
  destruct rest as [|m rest]; cbn [length Nat.ltb Nat.leb fst snd messages personality].
  - split; [by rewrite Hm|]. split; [done|]. done.
  - split; [done|]. split; [done|].
    intros q Hq. by apply clearChatHistory_other.
Qed.

End ChatUiFacts.

(** ** The video mode on top of the orchestrator *)

Section VideoUiFacts.
Import VideoGen VideoUi.

Lemma classify_failed (errorMessage : string) (v : View) :
  status (classify errorMessage v) = failed
  ∧ is_Some (error (classify errorMessage v))
  ∧ videoUrl (classify errorMessage v) = videoUrl v.
Proof.
  unfold classify.
  destruct (includes "RESOURCE_EXHAUSTED" errorMessage
            || includes "exceeded your current quota" errorMessage);
    [by repeat split|].
  destruct (includes "Requested entity was not found" errorMessage); by repeat split.
Qed.

(** The prefixes that the orchestrator puts before the provider's text hide
    none of the markers that the video mode looks for, and add none. *)
Lemma wrapping_keeps_markers (m : string) :
  includes "RESOURCE_EXHAUSTED" ("Video generation failed: " +:+ m)
  = includes "RESOURCE_EXHAUSTED" m
  ∧ includes "exceeded your current quota" ("Video generation failed: " +:+ m)
    = includes "exceeded your current quota" m
  ∧ includes "Requested entity was not found" ("Video generation failed: " +:+ m)
    = includes "Requested entity was not found" m
  ∧ includes "RESOURCE_EXHAUSTED" ("Failed to fetch video: " +:+ m)
    = includes "RESOURCE_EXHAUSTED" m
  ∧ includes "exceeded your current quota" ("Failed to fetch video: " +:+ m)
    = includes "exceeded your current quota" m
  ∧ includes "Requested entity was not found" ("Failed to fetch video: " +:+ m)
    = includes "Requested entity was not found" m.
Proof. repeat split; reflexivity. Qed.

(** X22.  What the video mode ends up showing follows the generator: when
    the form may not be submitted (nothing to generate from, or a generation
    under way) nothing changes; otherwise a run that throws always ends in the
    error state with a banner and no video; a run that returns ends with the
    video of the [completed] event and no banner; and the mode never shows
    [completed] for a run that did not return. *)
Theorem handleSubmit_follows_generator
    (trim : string → string) (foreign : bool) (env : Env) (w : World)
    (prompt : string) (aspect : VideoAspect) (imageFile : option File) (v : View) :
  let blocked :=
    (negb (truthy (Some (trim prompt))) && negb (bool_decide (is_Some imageFile)))
    || negb (may_submit (status v)) in
  let r := generateVideo env w prompt {| aspectRatio := aspect; imageFile := imageFile |} in
  let v' := handleSubmit trim foreign env w prompt aspect imageFile v in
  (blocked = true → v' = v)
  ∧ (blocked = false →
       (∀ e, run_outcome r = Throw e →
          status v' = failed ∧ is_Some (error v') ∧ videoUrl v' = None)
       ∧ (run_outcome r = Return tt →
            error v' = None
            ∧ ∃ url, yields (run_trace r) = [fetching; completed url]
                     ∧ (url ≠ "" → status v' = completed_video ∧ videoUrl v' = Some url)
                     ∧ (url = "" → status v' = fetching_asset ∧ videoUrl v' = None))
       ∧ (status v' = completed_video → run_outcome r = Return tt)).
Proof.
  cbv zeta. unfold handleSubmit.
  destruct ((negb (truthy (Some (trim prompt))) && negb (bool_decide (is_Some imageFile)))
            || negb (may_submit (status v))); [split; [done | discriminate]|].
  split; [discriminate|]. intros _.
  pose proof (generateVideo_event_cases env w prompt
                {| aspectRatio := aspect; imageFile := imageFile |}) as Hcases.
  destruct (generateVideo env w prompt {| aspectRatio := aspect; imageFile := imageFile |})
    as [t o]. unfold run_trace, run_outcome in *. cbn [fst snd] in *.
  destruct Hcases as [(Hy & _ & Ho) | [(Hy & _ & Ho) | (url & Hy & _ & Ho)]]; rewrite Hy;
    cbn [foldl consume videoUrl error apiKeyOk].
  - destruct o as [[]|e|]; [done| |].
    + destruct (classify_failed (caught_message foreign e)
                  {| status := generating; videoUrl := None; error := None;
                     apiKeyOk := apiKeyOk v |}) as (Hs & He & Hu).
      split; [by intros ? _|]. split; [done|]. by rewrite Hs.
    + by repeat split.
  - destruct o as [[]|e|]; [done| |].
    + destruct (classify_failed (caught_message foreign e)
                  {| status := fetching_asset; videoUrl := None; error := None;
                     apiKeyOk := apiKeyOk v |}) as (Hs & He & Hu).
      split; [by intros ? _|]. split; [done|]. by rewrite Hs.
    + by repeat split.
  - subst o. split; [done|]. split; [|done].
    intros _. destruct (truthy (Some url)) eqn:Hurl.
    + split; [done|]. exists url. split; [done|]. split; [done|].
      intros ->. discriminate.
    + split; [done|]. exists url. split; [done|]. split; [|done].
      intros Hne. by rewrite truthy_nonempty in Hurl.
Qed.


Lemma handleSubmit_follows_generator_witness :
  handleSubmit trim_ascii true with_key world_two_polls "a cat on a skateboard"
    va_16_9 None ready
  = {| status := completed_video; videoUrl := Some "blob:mp4-bytes"; error := None;
       apiKeyOk := true |}
  ∧ run_outcome (generateVideo with_key world_two_polls "a cat on a skateboard"
                   {| aspectRatio := va_16_9; imageFile := None |}) = Return tt.
Proof.
  split; [reflexivity|].
  exact (proj2 (proj2 (proj2 (handleSubmit_follows_generator trim_ascii true with_key
                  world_two_polls "a cat on a skateboard" va_16_9 None ready) eq_refl))
           eq_refl).
Defined.

(** X23.  The banner of a failed generation depends on the provider's text
    alone, the prefix that the orchestrator puts before it changing nothing:
    a text with a quota marker gives the quota banner; otherwise a text
    saying that the entity was not found gives the key banner and withdraws
    the key; any other text is shown behind the two prefixes.  A missing
    credential is shown as the generic failure with the configuration error's
    text. *)
Theorem generation_failure_banner
    (trim : string → string) (foreign : bool) (env : Env) (w : World)
    (prompt : string) (aspect : VideoAspect) (imageFile : option File) (v : View)
    (first final : Operation) (tp : Trace) (err : OperationError) :
  (negb (truthy (Some (trim prompt))) && negb (bool_decide (is_Some imageFile)))
  || negb (may_submit (status v)) = false →
  (truthy (API_KEY env) = true →
   image_readable {| aspectRatio := aspect; imageFile := imageFile |} = true →
   submitted w = inr first →
   poll first (polls w) = (tp, Return final) →
   VideoGen.error final = Some err →
   let m := VideoGen.message err in
   let quota := includes "RESOURCE_EXHAUSTED" m
                || includes "exceeded your current quota" m in
   let not_found := includes "Requested entity was not found" m in
   let v' := handleSubmit trim foreign env w prompt aspect imageFile v in
   status v' = failed ∧ videoUrl v' = None
   ∧ (quota = true → error v' = Some quota_banner ∧ apiKeyOk v' = apiKeyOk v)
   ∧ (quota = false → not_found = true →
        error v' = Some key_banner ∧ apiKeyOk v' = false)
   ∧ (quota = false → not_found = false →
        error v' = Some {| message := "Failed to generate video: Video generation failed: "
                                      +:+ m;
                           isQuotaError := false |}
        ∧ apiKeyOk v' = apiKeyOk v))
  ∧ (truthy (API_KEY env) = false →
     handleSubmit trim foreign env w prompt aspect imageFile v
     = {| status := failed; videoUrl := None;
          error := Some {| message := "Failed to generate video: API_KEY environment variable not set";
                           isQuotaError := false |};
          apiKeyOk := apiKeyOk v |}).
Proof.
  intros Hgo. split.
  - intros Hkey Himg Hsub Hpoll Herr. cbv zeta.
    destruct (generateVideo_polled env w prompt
                {| aspectRatio := aspect; imageFile := imageFile |} first final tp
                Hkey Himg Hsub Hpoll) as (pre & Hrun & Hy & _ & _).
    rewrite (deliver_generation_error env w final err Herr) in Hrun.
    cbn [fst snd] in Hrun.
    destruct (poll_quiet (polls w) first) as [Hqy _]. rewrite Hpoll in Hqy. cbn [fst] in Hqy.
    unfold handleSubmit. rewrite Hgo, Hrun.
    rewrite !yields_app, Hy, Hqy. cbn [app yields omap list_omap foldl caught_message].
    unfold classify.
    destruct (wrapping_keeps_markers (VideoGen.message err)) as (-> & -> & -> & _).
    destruct (includes "RESOURCE_EXHAUSTED" (VideoGen.message err)
              || includes "exceeded your current quota" (VideoGen.message err));
      [by repeat split|].
    destruct (includes "Requested entity was not found" (VideoGen.message err));
      by repeat split.
  - intros Hkey. unfold handleSubmit. rewrite Hgo.
    unfold generateVideo. rewrite Hkey. reflexivity.
Qed.

Lemma generation_failure_banner_witness :
  error (handleSubmit trim_ascii true with_key world_refused "a cat" va_16_9 None ready)
  = Some quota_banner.
Proof.
  destruct (proj1 (generation_failure_banner trim_ascii true with_key world_refused "a cat"
                     va_16_9 None ready op_running op_refused (poll_round op_running)
                     {| VideoGen.message := "RESOURCE_EXHAUSTED" |} eq_refl)
              eq_refl eq_refl eq_refl eq_refl eq_refl) as (_ & _ & Hquota & _).
  exact (proj1 (Hquota eq_refl)).
Defined.

End VideoUiFacts.

(** ** Instances *)

Section Instances.

Lemma cache_invariant_witness :
  ∃ c, ChatCache.chats
         (CacheRuns.exec_all [CacheRuns.Send with_key (inr "hi") "hello" creative;
                              CacheRuns.Send with_key (inl (ProviderError "503")) "hello" fast]
            ChatCache.init) !! creative = Some c
       ∧ ChatCache.thinkingConfig (ChatCache.chat_config c) = Some 32768%Z.
Proof.
  eexists. split; [reflexivity|].
  destruct (cache_invariant [CacheRuns.Send with_key (inr "hi") "hello" creative;
                             CacheRuns.Send with_key (inl (ProviderError "503")) "hello" fast])
    as (_ & _ & Hcfg).
  destruct (Hcfg creative _ eq_refl) as (_ & _ & Hbudget & _).
  by apply Hbudget.
Defined.

Lemma generateAudio_voice_alias_witness :
  Invokers.generateAudio Invokers.refuses_unset_key without_key
    (inl (ProviderError "503")) "Hello world!" "Prabhas"
  = ([], Throw (ProviderError "no API key"))
  ∧ ∃ voice,
      filter (λ e, is_remote e = true)
        (run_trace (Invokers.generateAudio Invokers.refuses_unset_key with_key
                      (inl (ProviderError "503")) "Hello world!" "Prabhas"))
      = [Remote (GenerateSpeech "gemini-2.5-flash-preview-tts" "Hello world!" voice)]
      ∧ voice = "Fenrir".
Proof.
  split.
  - exact (proj1 (generateAudio_voice_alias Invokers.refuses_unset_key without_key
                    (inl (ProviderError "503")) "Hello world!" "Prabhas") _ eq_refl).
  - destruct (proj1 (proj2 (generateAudio_voice_alias Invokers.refuses_unset_key with_key
                              (inl (ProviderError "503")) "Hello world!" "Prabhas"))
                eq_refl) as (voice & Htrace & Hp & _).
    exists voice. split; [exact Htrace | by apply Hp].
Defined.

Lemma generateVideo_one_delay_per_query_witness :
  VideoGen.count_polls (run_trace (VideoGen.generateVideo with_key
                            {| VideoGen.submitted := inr VideoGen.op_ready;
                               VideoGen.polls := [inr VideoGen.op_running];
                               VideoGen.fetched := inr VideoGen.asset_ok;
                               VideoGen.createObjectURL := VideoGen.object_url |}
                            "a cat" VideoGen.text_only)) = 0%nat.
Proof.
  exact (proj2 (proj2 (generateVideo_one_delay_per_query with_key
                  {| VideoGen.submitted := inr VideoGen.op_ready;
                     VideoGen.polls := [inr VideoGen.op_running];
                     VideoGen.fetched := inr VideoGen.asset_ok;
                     VideoGen.createObjectURL := VideoGen.object_url |}
                  "a cat" VideoGen.text_only)) VideoGen.op_ready eq_refl eq_refl).
Defined.

Lemma committed_transcript_only_grows_witness :
  TranscribeUi.transcript
    (TranscribeUi.hear [Transcribe.fragment_only "good" None;
                        Transcribe.fragment_only "good morning" None] ""
       {| TranscribeUi.transcript := ""; TranscribeUi.finalTranscript := "hello there " |}).2
  = (TranscribeUi.hear [Transcribe.fragment_only "good" None;
                        Transcribe.fragment_only "good morning" None] ""
       {| TranscribeUi.transcript := ""; TranscribeUi.finalTranscript := "hello there " |}).1.
Proof.
  exact (proj2 (committed_transcript_only_grows
                  [Transcribe.fragment_only "good" None;
                   Transcribe.fragment_only "good morning" None] ""
                  {| TranscribeUi.transcript := "";
                     TranscribeUi.finalTranscript := "hello there " |}) eq_refl).
Defined.

Lemma chat_mode_clear_witness :
  let actions := [ChatUi.Select fast; ChatUi.Submit with_key (inr "4") "2 + 2?";
                  ChatUi.Select standard] in
  ChatCache.chats
    (ChatUi.handleClearChat (ChatUi.session trim_ascii true actions).1
       (ChatUi.session trim_ascii true actions).2).2 !! fast
  = ChatCache.chats (ChatUi.session trim_ascii true actions).2 !! fast
  ∧ is_Some (ChatCache.chats (ChatUi.session trim_ascii true actions).2 !! fast).
Proof.
  cbv zeta. split; [|by eexists].
  pose proof (chat_mode_clear trim_ascii true
                [ChatUi.Select fast; ChatUi.Submit with_key (inr "4") "2 + 2?";
                 ChatUi.Select standard]) as Hclear.
  destruct (ChatUi.session trim_ascii true
              [ChatUi.Select fast; ChatUi.Submit with_key (inr "4") "2 + 2?";
               ChatUi.Select standard]) as [v s] eqn:Hsession.
  destruct Hclear as (_ & _ & _ & _ & Hother). cbn [fst snd].
  apply Hother. injection Hsession as <- _. discriminate.
Defined.

End Instances.
